(** * filemod: the unified (facade) file system and the repomod interpreter

    A shallow embedding of [src/unifiedFileSystem.ts] (class
    [UnifiedFileSystem]) and of the command interpreter ([handleCommand],
    [executeRepomod] and the default hooks) that drives it.

    - The asynchronous collaborators handed to the constructor ([__glob],
      [__getUnifiedEntry], [__readDirectory], [__readFile]) are calls to the
      outside world: a method is a tree of such calls ([prog]), and a method
      that consults no collaborator is a bare [Ret].
    - The private fields of the class are a record that every method
      threads explicitly; a thrown error leaves the fields as they were
      when it was thrown.
    - [__entries] is only ever looked up by key, so it is a [gmap];
      [__changes] is iterated by [forEach], so it keeps the insertion
      order of a JavaScript [Map]. *)

From stdpp Require Import gmap strings list.


(** ** Entries, digests and glob arguments *)

Inductive Kind : Type := file | directory.

(** [UnifiedEntry = UnifiedFile | UnifiedDirectory]: both carry a [path],
    and [kind] tells them apart. *)
Record UnifiedEntry : Type := { kind : Kind; path : string }.

#[global] Instance Kind_eq_dec : EqDecision Kind.
Proof. solve_decision. Defined.

#[global] Instance UnifiedEntry_eq_dec : EqDecision UnifiedEntry.
Proof. solve_decision. Defined.

(** [PathHashDigest] is a branded string. *)
Abbreviation PathHashDigest := string (only parsing).

(** The constructor argument [__buildPathHashDigest]: a pure function,
    fixed for the lifetime of an instance. *)
Class BuildPathHashDigest : Type :=
  buildPathHashDigest : string -> PathHashDigest.

Record GlobArguments : Type := {
  includePatterns : list string;
  excludePatterns : list string;
  absolute : bool;
  currentWorkingDirectory : string
}.

(** ** Collaborator calls and the programs that make them *)

(** A thrown JavaScript value; the code only ever builds [new Error(message)]
    itself, a rejected collaborator promise is an [Error] as well. *)
Inductive exn : Type := Error (message : string).

(** The four asynchronous collaborators, indexed by what they resolve to. *)
Inductive Call : Type -> Type :=
| Glob (globArguments : GlobArguments) : Call (list string)
| GetUnifiedEntry (path : string) : Call UnifiedEntry
| ReadDirectory (path : string) : Call (list UnifiedEntry)
| ReadFile (path : string) : Call string.

(** A program either is done or awaits a collaborator, whose promise
    rejects ([inl]) or resolves ([inr]). *)
Inductive prog (A : Type) : Type :=
| Ret (a : A)
| Vis {R : Type} (c : Call R) (k : exn + R -> prog A).

Arguments Ret {A} a.
Arguments Vis {A R} c k.

Fixpoint pbind {A B : Type} (m : prog A) (f : A -> prog B) : prog B :=
  match m with
  | Ret a => f a
  | Vis c k => Vis c (fun r => pbind (k r) f)
  end.

(** How a call ends: with a value, with a thrown error, or (only for the
    recursive interpreter) with the recursion budget used up. *)
Inductive outcome (A : Type) : Type :=
| Returned (a : A)
| Thrown (e : exn)
| OutOfFuel.

Arguments Returned {A} a.
Arguments Thrown {A} e.
Arguments OutOfFuel {A}.

(** A method of an object whose fields have type [F]. *)
Definition M (F A : Type) : Type := F -> prog (outcome A * F).

Definition ret {F A : Type} (a : A) : M F A :=
  fun s => Ret (Returned a, s).

Definition throw {F A : Type} (e : exn) : M F A :=
  fun s => Ret (Thrown e, s).

Definition continue {F A B : Type} (f : A -> M F B)
    (r : outcome A * F) : prog (outcome B * F) :=
  match r.1 with
  | Returned a => f a r.2
  | Thrown e => Ret (Thrown e, r.2)
  | OutOfFuel => Ret (OutOfFuel, r.2)
  end.

Definition bind {F A B : Type} (m : M F A) (f : A -> M F B) : M F B :=
  fun s => pbind (m s) (continue f).

(** [await c]: a rejection is rethrown at the [await]. *)
Definition await {F R : Type} (c : Call R) : M F R :=
  fun s => Vis c (fun r =>
    Ret (match r with inl e => Thrown e | inr v => Returned v end, s)).

(** [try { return await c } catch (error) { return fallback }] *)
Definition awaitOrElse {F R : Type} (c : Call R) (fallback : R) : M F R :=
  fun s => Vis c (fun r =>
    Ret (Returned (match r with inl _ => fallback | inr v => v end), s)).

Definition gets {F A : Type} (f : F -> A) : M F A :=
  fun s => Ret (Returned (f s), s).

Definition modify {F : Type} (f : F -> F) : M F unit :=
  fun s => Ret (Returned tt, f s).

#[global] Instance M_ret {F : Type} : MRet (M F) := @ret F.
#[global] Instance M_bind {F : Type} : MBind (M F) := fun A B f m => bind m f.

(** [for (const x of xs) { await body(x) }] *)
Fixpoint forEach {F A : Type} (xs : list A) (body : A -> M F unit) : M F unit :=
  match xs with
  | [] => ret tt
  | x :: xs' => body x ;; forEach xs' body
  end.

(** ** What the outside world saw of a program *)

(** One call to a collaborator together with what it answered. *)
Inductive Exchange : Type :=
| GlobExchange (globArguments : GlobArguments) (r : exn + list string)
| GetUnifiedEntryExchange (path : string) (r : exn + UnifiedEntry)
| ReadDirectoryExchange (path : string) (r : exn + list UnifiedEntry)
| ReadFileExchange (path : string) (r : exn + string).

Definition exchange {R : Type} (c : Call R) : exn + R -> Exchange :=
  match c in Call R return exn + R -> Exchange with
  | Glob globArguments => GlobExchange globArguments
  | GetUnifiedEntry p => GetUnifiedEntryExchange p
  | ReadDirectory p => ReadDirectoryExchange p
  | ReadFile p => ReadFileExchange p
  end.

(** [yields m tr a]: for the collaborator answers recorded in [tr], in that
    order and with no other call made, program [m] ends with [a]. *)
Inductive yields {A : Type} : prog A -> list Exchange -> A -> Prop :=
| yields_Ret (a : A) : yields (Ret a) [] a
| yields_Vis {R : Type} (c : Call R) (k : exn + R -> prog A)
    (r : exn + R) (tr : list Exchange) (a : A) :
    yields (k r) tr a -> yields (Vis c k) (exchange c r :: tr) a.

(** The continuation of a method runs on a returned value only. *)
Definition resumes {F A B : Type} (f : A -> M F B) (o : outcome A) (s : F)
    (tr : list Exchange) (r : outcome B * F) : Prop :=
  match o with
  | Returned a => yields (f a s) tr r
  | Thrown e => tr = [] /\ r = (Thrown e, s)
  | OutOfFuel => tr = [] /\ r = (OutOfFuel, s)
  end.


(** Two methods that no run can tell apart: from the same fields and for
    the same collaborator answers they end alike. *)
Definition sameRuns {F A : Type} (m m' : M F A) : Prop :=
  forall (s : F) (tr : list Exchange) (r : outcome A * F),
    yields (m s) tr r <-> yields (m' s) tr r.

(** ** JavaScript [Map]: lookup by key, iteration in insertion order *)

Module JSMap.
Section WithValues.
Context {V : Type}.

Definition t : Type := list (PathHashDigest * V).

Definition empty : t := [].

(** [map.get(key)]; [None] is [undefined]. *)
Fixpoint get (m : t) (key : PathHashDigest) : option V :=
  match m with
  | [] => None
  | (k, v) :: m' => if decide (k = key) then Some v else get m' key
  end.

(** [map.set(key, value)]: a key already present keeps its place in the
    iteration order and only has its value replaced; a new key goes to
    the end. *)
Fixpoint set (m : t) (key : PathHashDigest) (value : V) : t :=
  match m with
  | [] => [(key, value)]
  | (k, v) :: m' =>
      if decide (k = key) then (k, value) :: m'
      else (k, v) :: set m' key value
  end.

Definition keys (m : t) : list PathHashDigest := m.*1.
End WithValues.
Arguments t V : clear implicits.
End JSMap.

(** ** The directory membership index *)

Module LeftRightHashSetManager.
(** Modelled from the spec: the class [LeftRightHashSetManager] of
    [leftRightHashSetManager.ts] is imported by the file system but is not
    part of the sources at hand.  The specification describes it as a
    relation between the key of a directory (left) and the keys of the
    children observed under it (right) that answers "children of"
    queries, only ever grows, and is iterated in the order of first
    insertion.  It is a duplicate-free list of pairs, oldest first. *)
Definition t : Type := list (PathHashDigest * PathHashDigest).

(** Modelled from the spec: [new LeftRightHashSetManager(new Set())]. *)
Definition empty : t := [].

(** Modelled from the spec: [upsert(leftHash, rightHash)] records the pair
    unless it is recorded already. *)
Definition upsert (m : t) (leftHash rightHash : PathHashDigest) : t :=
  if decide ((leftHash, rightHash) ∈ m) then m
  else m ++ [(leftHash, rightHash)].

(** Modelled from the spec: [getRightHashesByLeftHash(leftHash)] is the
    set of right keys recorded with [leftHash], in insertion order. *)
Definition getRightHashesByLeftHash (m : t) (leftHash : PathHashDigest)
    : list PathHashDigest :=
  (filter (fun lr => lr.1 = leftHash) m).*2.
End LeftRightHashSetManager.

(** ** External file commands *)

(** What [buildExternalFileCommands] pushes: [{kind: 'deleteFile', path}] and
    [{kind: 'upsertFile', path, data}]. *)
Inductive ExternalFileCommand : Type :=
| ExternalDeleteFile (path : string)
| ExternalUpsertFile (path : string) (data : string).

#[global] Instance ExternalFileCommand_eq_dec : EqDecision ExternalFileCommand.
Proof. solve_decision. Defined.

Definition externalPath (command : ExternalFileCommand) : string :=
  match command with
  | ExternalDeleteFile p => p
  | ExternalUpsertFile p _ => p
  end.

(** ** class UnifiedFileSystem *)

Module UnifiedFileSystem.

(** The private fields.  A value of [__changes] is [Some data] for staged
    content and [None] for [null], the deletion marker. *)
Record t : Type := {
  __directoryFiles : LeftRightHashSetManager.t;
  __entries : gmap PathHashDigest UnifiedEntry;
  __changes : JSMap.t (option string)
}.

(** The field initialisers: what a fresh instance holds. *)
Definition new : t := {|
  __directoryFiles := LeftRightHashSetManager.empty;
  __entries := ∅;
  __changes := JSMap.empty
|}.

Definition entries_set (pathHashDigest : PathHashDigest)
    (unifiedEntry : UnifiedEntry) (this : t) : t :=
  {| __directoryFiles := __directoryFiles this;
     __entries := <[pathHashDigest := unifiedEntry]> (__entries this);
     __changes := __changes this |}.

Definition changes_set (pathHashDigest : PathHashDigest)
    (data : option string) (this : t) : t :=
  {| __directoryFiles := __directoryFiles this;
     __entries := __entries this;
     __changes := JSMap.set (__changes this) pathHashDigest data |}.

Definition directoryFiles_upsert (leftHash rightHash : PathHashDigest)
    (this : t) : t :=
  {| __directoryFiles :=
       LeftRightHashSetManager.upsert (__directoryFiles this) leftHash rightHash;
     __entries := __entries this;
     __changes := __changes this |}.

Section Methods.
Context `{BuildPathHashDigest}.

Definition entries_has (pathHashDigest : PathHashDigest) (this : t) : bool :=
  bool_decide (is_Some (__entries this !! pathHashDigest)).

Definition upsertUnifiedDirectory (directoryPath : string)
    : M t (option UnifiedEntry) :=
  let directoryPathHashDigest := buildPathHashDigest directoryPath in
  has ← gets (entries_has directoryPathHashDigest);
  if negb has then
    unifiedEntry ← await (GetUnifiedEntry directoryPath);
    if bool_decide (kind unifiedEntry ≠ directory) then
      ret None
    else
      modify (entries_set directoryPathHashDigest unifiedEntry);;
      ret (Some unifiedEntry)
  else
    gets (fun this => __entries this !! directoryPathHashDigest).

Definition upsertUnifiedFile (filePath : string)
    : M t (option UnifiedEntry) :=
  let filePathHashDigest := buildPathHashDigest filePath in
  has ← gets (entries_has filePathHashDigest);
  if negb has then
    unifiedEntry ← await (GetUnifiedEntry filePath);
    if bool_decide (kind unifiedEntry ≠ file) then
      ret None
    else
      modify (entries_set filePathHashDigest unifiedEntry);;
      ret (Some unifiedEntry)
  else
    gets (fun this => __entries this !! filePathHashDigest).

Definition upsertUnifiedEntry (path : string)
    : M t (option UnifiedEntry) :=
  unifiedDirectory ← upsertUnifiedDirectory path;
  match unifiedDirectory with
  | Some unifiedDirectory => ret (Some unifiedDirectory)
  | None => upsertUnifiedFile path
  end.

(** The body of the first [forEach] of [readDirectory]. *)
Definition recordChild (directoryPathHashDigest : PathHashDigest)
    (unifiedEntry : UnifiedEntry) : M t unit :=
  let pathHashDigest := buildPathHashDigest (path unifiedEntry) in
  (if bool_decide (kind unifiedEntry = directory) then
     modify (directoryFiles_upsert directoryPathHashDigest pathHashDigest);;
     modify (entries_set pathHashDigest unifiedEntry)
   else ret tt);;
  (if bool_decide (kind unifiedEntry = file) then
     modify (directoryFiles_upsert directoryPathHashDigest pathHashDigest);;
     modify (entries_set pathHashDigest unifiedEntry)
   else ret tt).

(** The second [forEach] of [readDirectory]: the paths of the recorded
    children whose entry is cached. *)
Definition childPaths (directoryPathHashDigest : PathHashDigest)
    (this : t) : list string :=
  omap (fun pathHashDigest => path <$> __entries this !! pathHashDigest)
    (LeftRightHashSetManager.getRightHashesByLeftHash
       (__directoryFiles this) directoryPathHashDigest).

Definition readDirectory (directoryPath : string) : M t (list string) :=
  let directoryPathHashDigest := buildPathHashDigest directoryPath in
  unifiedEntries ← await (ReadDirectory directoryPath);
  forEach unifiedEntries (recordChild directoryPathHashDigest);;
  gets (childPaths directoryPathHashDigest).

Definition readFile (path : string) : M t string :=
  let pathHashDigest := buildPathHashDigest path in
  upsertedData ← gets (fun this => JSMap.get (__changes this) pathHashDigest);
  match upsertedData with
  | None => awaitOrElse (ReadFile path) EmptyString
  | Some None => throw (Error "This file has already been deleted"%string)
  | Some (Some upsertedData) => ret upsertedData
  end.

Definition isDirectory (directoryPath : string) (this : t) : bool :=
  let directoryPathHashDigest := buildPathHashDigest directoryPath in
  bool_decide (kind <$> __entries this !! directoryPathHashDigest = Some directory).

Definition exists_ (directoryPath : string) (this : t) : bool :=
  let directoryPathHashDigest := buildPathHashDigest directoryPath in
  entries_has directoryPathHashDigest this.

(** The body of the [forEach] of [getFilePaths]. *)
Definition recordFile (path : string) : M t unit :=
  let unifiedFile := {| kind := file; path := path |} in
  let pathHashDigest := buildPathHashDigest path in
  modify (entries_set pathHashDigest unifiedFile).

Definition getFilePaths (directoryPath : string)
    (includePatterns excludePatterns : list string) : M t (list string) :=
  paths ← await (Glob {|
    includePatterns := includePatterns;
    excludePatterns := excludePatterns;
    currentWorkingDirectory := directoryPath;
    absolute := true
  |});
  forEach paths recordFile;;
  ret paths.

Definition deleteFile (filePath : string) (this : t) : t :=
  let pathHashDigest := buildPathHashDigest filePath in
  let unifiedFile := {| kind := file; path := filePath |} in
  changes_set pathHashDigest None
    (entries_set pathHashDigest unifiedFile this).

Definition upsertData (filePath : string) (data : string) (this : t) : t :=
  let pathHashDigest := buildPathHashDigest filePath in
  let unifiedFile := {| kind := file; path := filePath |} in
  changes_set pathHashDigest (Some data)
    (entries_set pathHashDigest unifiedFile this).

(** The callback of the [forEach] of [buildExternalFileCommands]; [push]
    appends. *)
Definition pushExternalFileCommands (this : t)
    (commands : list ExternalFileCommand)
    (change : PathHashDigest * option string) : list ExternalFileCommand :=
  let '(hashDigest, data) := change in
  let entry := __entries this !! hashDigest in
  let commands :=
    match entry, data with
    | Some entry, None => commands ++ [ExternalDeleteFile (path entry)]
    | _, _ => commands
    end in
  match entry, data with
  | Some entry, Some data => commands ++ [ExternalUpsertFile (path entry) data]
  | _, _ => commands
  end.

Definition buildExternalFileCommands (this : t) : list ExternalFileCommand :=
  foldl (pushExternalFileCommands this) [] (__changes this).
End Methods.
End UnifiedFileSystem.

(** ** Commands, hooks and the interpreter *)

Module Repomod.

(** [Readonly<Record<string, string | undefined>>] *)
Abbreviation Options := (gmap string string) (only parsing).

Inductive DirectoryCommand : Type :=
| HandleDirectory (path : string) (options : Options)
| HandleFile (path : string) (options : Options).

Inductive FileCommand : Type :=
| UpsertFile (path : string) (options : Options)
| DeleteFile (path : string)
| MoveFile (oldPath newPath : string) (options : Options)
| CopyFile (oldPath newPath : string) (options : Options).

Inductive DataCommand : Type :=
| UpsertData (data path : string)
| Noop.

(** [type Command = DirectoryCommand | FileCommand | DataCommand] *)
Inductive Command : Type :=
| OfDirectoryCommand (command : DirectoryCommand)
| OfFileCommand (command : FileCommand)
| OfDataCommand (command : DataCommand).

Coercion OfDirectoryCommand : DirectoryCommand >-> Command.
Coercion OfFileCommand : FileCommand >-> Command.
Coercion OfDataCommand : DataCommand >-> Command.

(** The methods of [FacadeFileSystem] (imported from [files.ts], whose
    text is not at hand) that the interpreter and [buildApi] call, over
    an instance whose fields have type [F]. *)
Record FacadeFileSystem (F : Type) : Type := {
  upsertFacadeEntry : string -> M F (option UnifiedEntry);
  upsertFacadeDirectory : string -> M F (option UnifiedEntry);
  upsertFacadeFile : string -> M F (option UnifiedEntry);
  readDirectory : string -> M F (list string);
  readFile : string -> M F string;
  isDirectory : string -> F -> bool;
  exists_ : string -> F -> bool;
  getFilePaths : string -> list string -> list string -> M F (list string);
  deleteFile : string -> F -> F;
  upsertData : string -> string -> F -> F;
  buildExternalFileCommands : F -> list ExternalFileCommand
}.

Arguments upsertFacadeEntry {F} _ _.
Arguments upsertFacadeDirectory {F} _ _.
Arguments upsertFacadeFile {F} _ _.
Arguments readDirectory {F} _ _.
Arguments readFile {F} _ _.
Arguments isDirectory {F} _ _ _.
Arguments exists_ {F} _ _ _.
Arguments getFilePaths {F} _ _ _ _.
Arguments deleteFile {F} _ _ _.
Arguments upsertData {F} _ _ _ _.
Arguments buildExternalFileCommands {F} _ _.

(** [node:path], as far as [buildApi] uses it. *)
Record PathAPI : Type := {
  getDirname : string -> string;
  getBasename : string -> string;
  joinPaths : list string -> string
}.

Section WithFacade.
(** [F]: the fields of the facade; [Dependencies]: what
    [getDependencies] hands to the hooks. *)
Context {F Dependencies : Type}.

Record DataAPI : Type := {
  getDependencies : unit -> Dependencies;
  dataPathAPI : PathAPI
}.

Record FileAPI : Type := {
  fileIsDirectory : string -> F -> bool;
  fileExists : string -> F -> bool;
  fileReadFile : string -> M F string;
  fileDataAPI : DataAPI
}.

Record DirectoryAPI : Type := {
  directoryReadDirectory : string -> M F (list string);
  directoryIsDirectory : string -> F -> bool;
  directoryExists : string -> F -> bool;
  directoryReadFile : string -> M F string;
  directoryDataAPI : DataAPI
}.

Record Repomod : Type := {
  includePatterns : option (list string);
  excludePatterns : option (list string);
  handleDirectory :
    option (DirectoryAPI -> string -> Options -> M F (list DirectoryCommand));
  handleFile :
    option (FileAPI -> string -> Options -> M F (list FileCommand));
  handleData :
    option (DataAPI -> string -> string -> Options -> M F DataCommand)
}.

Record API : Type := {
  facadeFileSystem : FacadeFileSystem F;
  directoryAPI : DirectoryAPI;
  fileAPI : FileAPI;
  dataAPI : DataAPI
}.

(** [{...repomod, handleDirectory: hook}] *)
Definition withHandleDirectory
    (hook : option (DirectoryAPI -> string -> Options -> M F (list DirectoryCommand)))
    (repomod : Repomod) : Repomod := {|
  includePatterns := includePatterns repomod;
  excludePatterns := excludePatterns repomod;
  handleDirectory := hook;
  handleFile := handleFile repomod;
  handleData := handleData repomod
|}.

(** The commands that are not [handleDirectory]. *)
Definition notHandleDirectory (command : Command) : Prop :=
  match command with
  | OfDirectoryCommand (HandleDirectory _ _) => False
  | _ => True
  end.

Definition defaultHandleDirectory (api : DirectoryAPI)
    (directoryPath : string) (options : Options)
    : M F (list DirectoryCommand) :=
  paths ← directoryReadDirectory api directoryPath;
  gets (fun this =>
    foldl (fun commands path =>
             let directory := directoryIsDirectory api path this in
             if directory then commands ++ [HandleDirectory path options]
             else commands ++ [HandleFile path options])
          [] paths).

Definition defaultHandleFile (_ : FileAPI) (path : string)
    (options : Options) : M F (list FileCommand) :=
  ret [UpsertFile path options].

Definition defaultHandleData (_ : DataAPI) (_ _ : string) (_ : Options)
    : M F DataCommand :=
  ret Noop.

(** [handleCommand]; [fuel] bounds the depth of the recursion, which
    the hooks of a repomod can make as deep as they like. *)
Fixpoint handleCommand (fuel : nat) (api : API) (repomod : Repomod)
    (command : Command) : M F unit :=
  match fuel with
  | 0 => fun this => Ret (OutOfFuel, this)
  | S fuel =>
      match command with
      | OfDirectoryCommand (HandleDirectory path options) =>
          match includePatterns repomod with
          | Some patterns =>
              paths ← getFilePaths (facadeFileSystem api) path patterns
                        (default [] (excludePatterns repomod));
              forEach paths (fun path =>
                let handleFileCommand := HandleFile path options in
                handleCommand fuel api repomod handleFileCommand)
          | None => ret tt
          end;;
          facadeEntry ← upsertFacadeDirectory (facadeFileSystem api) path;
          match facadeEntry with
          | None => ret tt
          | Some _ =>
              let handleDirectory :=
                default defaultHandleDirectory (handleDirectory repomod) in
              commands ← handleDirectory (directoryAPI api) path options;
              forEach commands (fun command : DirectoryCommand =>
                handleCommand fuel api repomod command)
          end
      | OfDirectoryCommand (HandleFile path options) =>
          facadeEntry ← upsertFacadeFile (facadeFileSystem api) path;
          match facadeEntry with
          | None => ret tt
          | Some _ =>
              let handleFile :=
                default defaultHandleFile (handleFile repomod) in
              commands ← handleFile (fileAPI api) path options;
              forEach commands (fun command : FileCommand =>
                handleCommand fuel api repomod command)
          end
      | OfFileCommand (UpsertFile path options) =>
          data ← readFile (facadeFileSystem api) path;
          let handleData :=
            default defaultHandleData (handleData repomod) in
          dataCommand ← handleData (dataAPI api) path data options;
          handleCommand fuel api repomod (OfDataCommand dataCommand)
      | OfFileCommand (DeleteFile path) =>
          modify (deleteFile (facadeFileSystem api) path)
      | OfDataCommand (UpsertData data path) =>
          modify (upsertData (facadeFileSystem api) path data)
      | OfFileCommand (MoveFile _ _ _)
      | OfFileCommand (CopyFile _ _ _)
      | OfDataCommand Noop => ret tt
      end
  end.

Definition buildApi (platformPath : PathAPI)
    (facadeFileSystem : FacadeFileSystem F)
    (getDependencies : unit -> Dependencies) : API :=
  let pathAPI := platformPath in
  let dataAPI :=
    {| getDependencies := getDependencies; dataPathAPI := pathAPI |} in
  let directoryAPI := {|
    directoryReadDirectory := fun path => readDirectory facadeFileSystem path;
    directoryIsDirectory := fun path => isDirectory facadeFileSystem path;
    directoryExists := fun path => exists_ facadeFileSystem path;
    directoryReadFile := fun path => readFile facadeFileSystem path;
    directoryDataAPI := dataAPI
  |} in
  let fileAPI := {|
    fileIsDirectory := directoryIsDirectory directoryAPI;
    fileExists := directoryExists directoryAPI;
    fileReadFile := directoryReadFile directoryAPI;
    fileDataAPI := directoryDataAPI directoryAPI
  |} in
  {| directoryAPI := directoryAPI;
     facadeFileSystem := facadeFileSystem;
     fileAPI := fileAPI;
     dataAPI := dataAPI |}.

Definition executeRepomod (fuel : nat) (api : API) (repomod : Repomod)
    (path : string) (options : Options) : M F (list ExternalFileCommand) :=
  facadeEntry ← upsertFacadeEntry (facadeFileSystem api) path;
  match facadeEntry with
  | None => ret []
  | Some facadeEntry =>
      let command :=
        if bool_decide (kind facadeEntry = directory)
        then HandleDirectory path options
        else HandleFile path options in
      handleCommand fuel api repomod command;;
      gets (buildExternalFileCommands (facadeFileSystem api))
  end.
End WithFacade.

Arguments DataAPI Dependencies : clear implicits.
Arguments FileAPI F Dependencies : clear implicits.
Arguments DirectoryAPI F Dependencies : clear implicits.
Arguments Repomod F Dependencies : clear implicits.
Arguments API F Dependencies : clear implicits.

(** The class at hand behind the facade interface: [UnifiedFileSystem]
    carries the methods that the interpreter calls on its
    [FacadeFileSystem], under the names [upsertUnified...]. *)
Definition unifiedFacade `{BuildPathHashDigest}
    : FacadeFileSystem UnifiedFileSystem.t := {|
  upsertFacadeEntry := UnifiedFileSystem.upsertUnifiedEntry;
  upsertFacadeDirectory := UnifiedFileSystem.upsertUnifiedDirectory;
  upsertFacadeFile := UnifiedFileSystem.upsertUnifiedFile;
  readDirectory := UnifiedFileSystem.readDirectory;
  readFile := UnifiedFileSystem.readFile;
  isDirectory := UnifiedFileSystem.isDirectory;
  exists_ := UnifiedFileSystem.exists_;
  getFilePaths := UnifiedFileSystem.getFilePaths;
  deleteFile := UnifiedFileSystem.deleteFile;
  upsertData := UnifiedFileSystem.upsertData;
  buildExternalFileCommands := UnifiedFileSystem.buildExternalFileCommands
|}.
End Repomod.

(** ** Runs of a file system instance *)

Module Run.
Import UnifiedFileSystem.

(** The state-changing public methods, as a caller (the interpreter, or a
    hook through the API) can invoke them. *)
Inductive Operation : Type :=
| DoUpsertUnifiedEntry (path : string)
| DoUpsertUnifiedDirectory (directoryPath : string)
| DoUpsertUnifiedFile (filePath : string)
| DoReadDirectory (directoryPath : string)
| DoReadFile (path : string)
| DoGetFilePaths (directoryPath : string)
    (includePatterns excludePatterns : list string)
| DoDeleteFile (filePath : string)
| DoUpsertData (filePath : string) (data : string).

(** The fields a method call leaves behind, whatever it returns or throws. *)
Definition fieldsAfter {A : Type} (m : prog (outcome A * t)) : prog t :=
  pbind m (fun r => Ret r.2).

Section WithDigest.
Context `{BuildPathHashDigest}.

(** What the first loop of [readDirectory] does to the fields for the
    children [unifiedEntries], first to last. *)
Definition recordChildren (directoryPathHashDigest : PathHashDigest)
    (unifiedEntries : list UnifiedEntry) (this : t) : t :=
  foldl (fun this unifiedEntry =>
           let pathHashDigest := buildPathHashDigest (path unifiedEntry) in
           entries_set pathHashDigest unifiedEntry
             (directoryFiles_upsert directoryPathHashDigest pathHashDigest this))
        this unifiedEntries.

(** What the loop of [getFilePaths] does to the fields. *)
Definition recordFiles (paths : list string) (this : t) : t :=
  foldl (fun this path =>
           entries_set (buildPathHashDigest path) {| kind := file; path := path |}
             this)
        this paths.

Definition perform (operation : Operation) (this : t) : prog t :=
  match operation with
  | DoUpsertUnifiedEntry path => fieldsAfter (upsertUnifiedEntry path this)
  | DoUpsertUnifiedDirectory directoryPath =>
      fieldsAfter (upsertUnifiedDirectory directoryPath this)
  | DoUpsertUnifiedFile filePath =>
      fieldsAfter (upsertUnifiedFile filePath this)
  | DoReadDirectory directoryPath =>
      fieldsAfter (readDirectory directoryPath this)
  | DoReadFile path => fieldsAfter (readFile path this)
  | DoGetFilePaths directoryPath includePatterns excludePatterns =>
      fieldsAfter (getFilePaths directoryPath includePatterns excludePatterns this)
  | DoDeleteFile filePath => Ret (deleteFile filePath this)
  | DoUpsertData filePath data => Ret (upsertData filePath data this)
  end.

(** A run: method calls one after the other, each with the collaborator
    exchanges it made. *)
Inductive steps : t -> list (Operation * list Exchange) -> t -> Prop :=
| steps_done (this : t) : steps this [] this
| steps_next (this this' this'' : t) (operation : Operation)
    (tr : list Exchange) (history : list (Operation * list Exchange)) :
    yields (perform operation this) tr this' ->
    steps this' history this'' ->
    steps this ((operation, tr) :: history) this''.
(** How one call can change the fields. *)
Inductive effect (this : t) : Operation -> list Exchange -> t -> Prop :=
| effect_none (operation : Operation) (tr : list Exchange) :
    match operation with
    | DoDeleteFile _ | DoUpsertData _ _ => False
    | _ => True
    end ->
    effect this operation tr this
| effect_upsert (operation : Operation) (p : string) (x : UnifiedEntry)
    (tr : list Exchange) :
    operation = DoUpsertUnifiedEntry p \/ operation = DoUpsertUnifiedDirectory p
      \/ operation = DoUpsertUnifiedFile p ->
    __entries this !! buildPathHashDigest p = None ->
    effect this operation tr (entries_set (buildPathHashDigest p) x this)
| effect_readDirectory (d : string) (es : list UnifiedEntry) :
    effect this (DoReadDirectory d) [ReadDirectoryExchange d (inr es)]
      (recordChildren (buildPathHashDigest d) es this)
| effect_getFilePaths (d : string) (inc exc : list string)
    (globArguments : GlobArguments) (ps : list string) :
    effect this (DoGetFilePaths d inc exc) [GlobExchange globArguments (inr ps)]
      (recordFiles ps this)
| effect_deleteFile (p : string) :
    effect this (DoDeleteFile p) [] (deleteFile p this)
| effect_upsertData (p data : string) :
    effect this (DoUpsertData p data) [] (upsertData p data this).
End WithDigest.

(** The paths a call puts forward for the entry cache: the argument of an
    upsert, of [deleteFile] and of [upsertData]. *)
Definition operationPaths (operation : Operation) : list string :=
  match operation with
  | DoUpsertUnifiedEntry p | DoUpsertUnifiedDirectory p
  | DoUpsertUnifiedFile p | DoDeleteFile p | DoUpsertData p _ => [p]
  | DoReadDirectory _ | DoReadFile _ | DoGetFilePaths _ _ _ => []
  end.

(** The paths a collaborator puts forward: the children of a listing and
    the matches of a glob. *)
Definition exchangePaths (x : Exchange) : list string :=
  match x with
  | GlobExchange _ (inr paths) => paths
  | ReadDirectoryExchange _ (inr unifiedEntries) => path <$> unifiedEntries
  | _ => []
  end.

(** Every path a run has mentioned to the entry cache. *)
Definition mentioned (history : list (Operation * list Exchange)) : list string :=
  history ≫= fun step => operationPaths step.1 ++ (step.2 ≫= exchangePaths).

(** The children that some listing of the backing store reported as
    directories. *)
Definition exchangeDirectories (x : Exchange) : list string :=
  match x with
  | ReadDirectoryExchange _ (inr unifiedEntries) =>
      path <$> filter (fun unifiedEntry => kind unifiedEntry = directory)
                 unifiedEntries
  | _ => []
  end.


(** Key [hashDigest] is backed: the cache holds an entry for it whose own
    path derives that key. *)
Definition backed `{BuildPathHashDigest} (hashDigest : PathHashDigest)
    (this : t) : Prop :=
  exists entry, __entries this !! hashDigest = Some entry /\
                buildPathHashDigest (path entry) = hashDigest.

(** What the ledger and the index promise about the cache: the keys of the
    ledger are distinct, and every key of the ledger and every child key of
    the index is backed. *)
Definition coherent `{BuildPathHashDigest} (this : t) : Prop :=
  NoDup (JSMap.keys (__changes this)) /\
  (forall hashDigest, hashDigest ∈ JSMap.keys (__changes this) ->
     backed hashDigest this) /\
  (forall leftRight, leftRight ∈ __directoryFiles this ->
     backed leftRight.2 this).

(** The cache after recording [unifiedEntries], first to last, each under
    the key of its own path. *)
Definition cacheAll `{BuildPathHashDigest} (unifiedEntries : list UnifiedEntry)
    (entries : gmap PathHashDigest UnifiedEntry)
    : gmap PathHashDigest UnifiedEntry :=
  foldl (fun entries unifiedEntry =>
           <[buildPathHashDigest (path unifiedEntry) := unifiedEntry]> entries)
        entries unifiedEntries.

Definition asFile (path : string) : UnifiedEntry :=
  {| kind := file; path := path |}.

(** The commands that one ledger entry contributes. *)
Definition commandsFor (this : t) (change : PathHashDigest * option string)
    : list ExternalFileCommand :=
  match __entries this !! change.1 with
  | Some entry =>
      match change.2 with
      | None => [ExternalDeleteFile (path entry)]
      | Some data => [ExternalUpsertFile (path entry) data]
      end
  | None => []
  end.
End Run.

(** ** Vocabulary for further properties *)

(** Method [m] never changes observation [f] of the fields, however its
    collaborators answer and however it ends. *)
Definition keeps {F X A : Type} (f : F -> X) (m : M F A) : Prop :=
  forall (s s' : F) (tr : list Exchange) (o : outcome A),
    yields (m s) tr (o, s') -> f s' = f s.

(** The calls that write to the ledger. *)
Definition staging (operation : Run.Operation) : Prop :=
  match operation with
  | Run.DoDeleteFile _ | Run.DoUpsertData _ _ => True
  | _ => False
  end.

(** The calls that write to the ledger under key [hashDigest]. *)
Definition stages `{BuildPathHashDigest} (hashDigest : PathHashDigest)
    (operation : Run.Operation) : Prop :=
  match operation with
  | Run.DoDeleteFile p | Run.DoUpsertData p _ =>
      buildPathHashDigest p = hashDigest
  | _ => False
  end.

(** The commands whose own dispatch writes to the ledger are [deleteFile]
    and [upsertData]; these are the others. *)
Definition stagesNothing (command : Repomod.Command) : Prop :=
  match command with
  | Repomod.OfFileCommand (Repomod.DeleteFile _)
  | Repomod.OfDataCommand (Repomod.UpsertData _ _) => False
  | _ => True
  end.

(** The command [defaultHandleDirectory] emits for one listed child. *)
Definition commandForChild {F : Type} (isDirectory : string -> F -> bool)
    (options : gmap string string) (this : F) (path : string)
    : Repomod.DirectoryCommand :=
  if isDirectory path this then Repomod.HandleDirectory path options
  else Repomod.HandleFile path options.

(** A digest for worked examples: every path is its own key. *)
Definition identityDigest : BuildPathHashDigest := fun path => path.

(** ** A worked example

    An instance keyed by the paths themselves behind the facade, no
    dependencies, no hooks, and one include pattern. *)
Module Example.
Definition globArguments : GlobArguments := {|
  includePatterns := ["**/*.index.html"%string];
  excludePatterns := [];
  absolute := true;
  currentWorkingDirectory := "/site"
|}.

Import Repomod.

Definition platformPath : PathAPI := {|
  getDirname := fun path => path;
  getBasename := fun path => path;
  joinPaths := fun paths => String.concat "/" paths
|}.

Definition api : API UnifiedFileSystem.t unit :=
  buildApi platformPath (@unifiedFacade identityDigest) (fun _ => tt).

Definition repomod : Repomod UnifiedFileSystem.t unit := {|
  includePatterns := Some ["**/*.index.html"%string];
  excludePatterns := None;
  handleDirectory := None;
  handleFile := None;
  handleData := None
|}.

(** A directory hook that fails as soon as it is run. *)
Definition failingHook : DirectoryAPI UnifiedFileSystem.t unit -> string ->
    gmap string string -> M UnifiedFileSystem.t (list DirectoryCommand) :=
  fun _ _ _ => throw (Error "handleDirectory was run").
End Example.

(** Answers the call a program is waiting on with [r]. *)
Ltac answer r :=
  match goal with
  | |- yields ?m _ _ =>
      let m' := eval vm_compute in m in
      match m' with
      | Vis ?c ?k => change m with (Vis c k); apply (yields_Vis c k r)
      end
  end.

(** Closes a program that has come to its end. *)
Ltac finished :=
  match goal with
  | |- yields ?m _ _ =>
      let m' := eval vm_compute in m in
      change m with m'; apply yields_Ret
  end.

(** * Properties *)

(** ** Programs and their exchanges *)

Lemma yields_inv {A : Type} (m : prog A) (tr : list Exchange) (a : A) :
  yields m tr a ->
  match m with
  | Ret a' => tr = [] /\ a = a'
  | Vis c k => exists r tr', tr = exchange c r :: tr' /\ yields (k r) tr' a
  end.
Proof. destruct 1; eauto. Qed.

Lemma yields_Ret_inv {A : Type} (a a' : A) (tr : list Exchange) :
  yields (Ret a') tr a -> tr = [] /\ a = a'.
Proof. apply (yields_inv (Ret a')). Qed.

Lemma yields_pbind {A B : Type} (m : prog A) (f : A -> prog B)
    (tr : list Exchange) (b : B) :
  yields (pbind m f) tr b <->
  exists tr1 a tr2, yields m tr1 a /\ yields (f a) tr2 b /\ tr = tr1 ++ tr2.
Proof.
  revert tr. induction m as [a | R c k IH]; intros tr; simpl.
  - split.
    + intros Hy. exists [], a, tr. split; [constructor | done].
    + intros (tr1 & a' & tr2 & Hm & Hf & ->).
      apply yields_Ret_inv in Hm as [-> ->]. done.
  - split.
    + intros Hy. apply yields_inv in Hy as (r & tr' & -> & Hy).
      apply IH in Hy as (tr1 & a & tr2 & Hm & Hf & ->).
      exists (exchange c r :: tr1), a, tr2.
      split; [by constructor | done].
    + intros (tr1 & a & tr2 & Hm & Hf & ->).
      apply yields_inv in Hm as (r & tr' & -> & Hm). simpl.
      constructor. apply IH. eauto 10.
Qed.

Lemma yields_bind {F A B : Type} (m : M F A) (f : A -> M F B) (s : F)
    (tr : list Exchange) (r : outcome B * F) :
  yields ((m ≫= f) s) tr r <->
  exists tr1 o s1 tr2,
    yields (m s) tr1 (o, s1) /\ resumes f o s1 tr2 r /\ tr = tr1 ++ tr2.
Proof.
  unfold mbind, M_bind, bind. rewrite yields_pbind. split.
  - intros (tr1 & [o s1] & tr2 & Hm & Hf & ->).
    exists tr1, o, s1, tr2. split; [done|]. split; [|done].
    unfold continue in Hf. simpl in Hf.
    destruct o; simpl; [done | by apply yields_Ret_inv in Hf ..].
  - intros (tr1 & o & s1 & tr2 & Hm & Hf & ->).
    exists tr1, (o, s1), tr2. split; [done|]. split; [|done].
    unfold continue. simpl.
    destruct o; simpl in *; [done | destruct Hf as [-> ->]; constructor ..].
Qed.

(** ** JavaScript maps *)

Lemma JSMap_get_set_eq {V : Type} (m : JSMap.t V) (key : string) (value : V) :
  JSMap.get (JSMap.set m key value) key = Some value.
Proof.
  induction m as [| [k v] m IH]; simpl.
  - by rewrite decide_True.
  - destruct (decide (k = key)) as [-> | Hne]; simpl.
    + by rewrite decide_True.
    + by rewrite decide_False.
Qed.

Lemma JSMap_get_set_ne {V : Type} (m : JSMap.t V) (key key' : string) (value : V) :
  key ≠ key' -> JSMap.get (JSMap.set m key value) key' = JSMap.get m key'.
Proof.
  intros Hne. induction m as [| [k v] m IH]; simpl.
  - by rewrite decide_False.
  - destruct (decide (k = key)) as [-> | Hk]; simpl.
    + by rewrite !decide_False.
    + by rewrite IH.
Qed.

Lemma JSMap_keys_set_in {V : Type} (m : JSMap.t V) (key : string) (value : V) :
  key ∈ JSMap.keys m -> JSMap.keys (JSMap.set m key value) = JSMap.keys m.
Proof.
  unfold JSMap.keys. induction m as [| [k v] m IH]; simpl.
  - by intros ?%elem_of_nil.
  - intros Hin. destruct (decide (k = key)) as [-> | Hk]; simpl; [done|].
    f_equal. apply IH. apply elem_of_cons in Hin as [? |]; [congruence | done].
Qed.

Lemma JSMap_keys_set_notin {V : Type} (m : JSMap.t V) (key : string) (value : V) :
  key ∉ JSMap.keys m ->
  JSMap.keys (JSMap.set m key value) = JSMap.keys m ++ [key].
Proof.
  unfold JSMap.keys. induction m as [| [k v] m IH]; simpl; [done|].
  intros Hin. apply not_elem_of_cons in Hin as [Hne Hin].
  rewrite decide_False by done. simpl. f_equal. by apply IH.
Qed.

Lemma JSMap_keys_set {V : Type} (m : JSMap.t V) (key key' : string) (value : V) :
  key' ∈ JSMap.keys (JSMap.set m key value) <-> key' = key \/ key' ∈ JSMap.keys m.
Proof.
  destruct (decide (key ∈ JSMap.keys m)) as [Hin | Hin].
  - rewrite JSMap_keys_set_in by done. split; [by right | by intros [-> |]].
  - rewrite JSMap_keys_set_notin by done.
    rewrite elem_of_app, list_elem_of_singleton. tauto.
Qed.

Lemma JSMap_keys_set_NoDup {V : Type} (m : JSMap.t V) (key : string) (value : V) :
  NoDup (JSMap.keys m) -> NoDup (JSMap.keys (JSMap.set m key value)).
Proof.
  intros Hnd. destruct (decide (key ∈ JSMap.keys m)) as [Hin | Hin].
  - by rewrite JSMap_keys_set_in.
  - rewrite JSMap_keys_set_notin by done. apply NoDup_app. split; [done|].
    split; [| apply NoDup_singleton].
    intros x Hx ->%list_elem_of_singleton. done.
Qed.

(** ** The facade, one call at a time *)

Section Facade.
Import UnifiedFileSystem.
Context `{BuildPathHashDigest}.

Lemma entries_has_true (pathHashDigest : string) (this : t) :
  entries_has pathHashDigest this = true <->
  is_Some (__entries this !! pathHashDigest).
Proof. unfold entries_has. apply bool_decide_eq_true. Qed.

Lemma upsertUnifiedDirectory_cached (p : string) (entry : UnifiedEntry)
    (this : t) :
  __entries this !! buildPathHashDigest p = Some entry ->
  upsertUnifiedDirectory p this = Ret (Returned (Some entry), this).
Proof.
  intros Hentry.
  assert (entries_has (buildPathHashDigest p) this = true) as Hhas
    by (apply entries_has_true; eauto).
  unfold upsertUnifiedDirectory, mbind, M_bind, bind, gets.
  simpl. unfold continue. simpl. rewrite Hhas. simpl. by rewrite Hentry.
Qed.

Lemma upsertUnifiedFile_cached (p : string) (entry : UnifiedEntry)
    (this : t) :
  __entries this !! buildPathHashDigest p = Some entry ->
  upsertUnifiedFile p this = Ret (Returned (Some entry), this).
Proof.
  intros Hentry.
  assert (entries_has (buildPathHashDigest p) this = true) as Hhas
    by (apply entries_has_true; eauto).
  unfold upsertUnifiedFile, mbind, M_bind, bind, gets.
  simpl. unfold continue. simpl. rewrite Hhas. simpl. by rewrite Hentry.
Qed.

(** C1, as the code has it: [upsertUnifiedDirectory] and [upsertUnifiedFile]
    on a path whose key is cached hand back the cached entry whatever its
    kind; they consult no collaborator and leave every field as it was.
    In particular a path cached as a file is not answered with [null] by
    [upsertUnifiedDirectory], nor one cached as a directory by
    [upsertUnifiedFile]. *)
Theorem upsert_cached_returns_cached_entry (p : string) (entry : UnifiedEntry)
    (this : t) :
  __entries this !! buildPathHashDigest p = Some entry ->
  upsertUnifiedDirectory p this = Ret (Returned (Some entry), this) /\
  upsertUnifiedFile p this = Ret (Returned (Some entry), this).
Proof.
  intros Hentry. split.
  - by apply upsertUnifiedDirectory_cached.
  - by apply upsertUnifiedFile_cached.
Qed.

(** C2: once [deleteFile(p)] has run, whatever the fields held before,
    [readFile(p)] throws the "already deleted" error; no collaborator is
    asked and the fields stay as [deleteFile] left them. *)
Theorem readFile_after_deleteFile_throws (p : string) (this : t) :
  readFile p (deleteFile p this) =
  Ret (Thrown (Error "This file has already been deleted"), deleteFile p this).
Proof.
  unfold readFile, mbind, M_bind, bind, gets. simpl. unfold continue. simpl.
  by rewrite JSMap_get_set_eq.
Qed.

(** C3: after [upsertData(p, X)], [readFile(p)] returns exactly [X]: the
    program is a bare return, so the backing read is not consulted,
    whatever the backing store holds for [p]. *)
Theorem readFile_after_upsertData_returns_data (p X : string) (this : t) :
  readFile p (upsertData p X this) = Ret (Returned X, upsertData p X this).
Proof.
  unfold readFile, mbind, M_bind, bind, gets. simpl. unfold continue. simpl.
  by rewrite JSMap_get_set_eq.
Qed.

(** C5: for a path with no ledger entry, [readFile] asks the backing read
    once, and when that read fails with any error [e] the call returns the
    empty string and changes no field: the failure is not rethrown. *)
Theorem readFile_swallows_backing_failure (p : string) (this : t) (e : exn)
    (r : outcome string * t) :
  JSMap.get (__changes this) (buildPathHashDigest p) = None ->
  yields (readFile p this) [ReadFileExchange p (inl e)] r <->
  r = (Returned EmptyString, this).
Proof.
  intros Hnone.
  unfold readFile, mbind, M_bind, bind, gets. simpl. unfold continue. simpl.
  rewrite Hnone. unfold awaitOrElse. split.
  - intros Hy. apply yields_inv in Hy as (r' & tr' & Heq & Hy).
    simpl in Heq. injection Heq as <- <-.
    by apply yields_Ret_inv in Hy as [_ ->].
  - intros ->. apply (yields_Vis (ReadFile p) _ (inl e)). constructor.
Qed.
End Facade.

(** The witnesses of C1 and C5, on a fresh instance keyed by the paths
    themselves. *)
Lemma upsert_cached_returns_cached_entry_witness :
  let this := @UnifiedFileSystem.upsertData identityDigest "/a" "x"
                UnifiedFileSystem.new in
  let cached := {| kind := file; path := "/a" |} in
  UnifiedFileSystem.__entries this !! identityDigest "/a" = Some cached /\
  @UnifiedFileSystem.upsertUnifiedDirectory identityDigest "/a" this
    = Ret (Returned (Some cached), this).
Proof.
  split; [reflexivity |].
  apply (@upsert_cached_returns_cached_entry identityDigest "/a"). reflexivity.
Defined.

Lemma readFile_swallows_backing_failure_witness :
  JSMap.get (UnifiedFileSystem.__changes UnifiedFileSystem.new)
    (identityDigest "/a") = None /\
  yields (@UnifiedFileSystem.readFile identityDigest "/a" UnifiedFileSystem.new)
    [ReadFileExchange "/a" (inl (Error "ENOENT"))]
    (Returned EmptyString, UnifiedFileSystem.new).
Proof.
  split; [reflexivity |].
  apply (@readFile_swallows_backing_failure identityDigest); reflexivity.
Defined.

(** ** What each call yields *)

Section Yields.
Import UnifiedFileSystem Run.
Context `{BuildPathHashDigest}.

Lemma yields_await {F R : Type} (c : Call R) (s : F) (tr : list Exchange)
    (r : outcome R * F) :
  yields (await c s) tr r <->
  exists x, tr = [exchange c x] /\
    r = (match x with inl e => Thrown e | inr v => Returned v end, s).
Proof.
  unfold await. split.
  - intros Hy. apply yields_inv in Hy as (x & tr' & -> & Hy).
    apply yields_Ret_inv in Hy as [-> ->]. eauto.
  - intros (x & -> & ->). constructor. constructor.
Qed.

Lemma forEach_recordChild (directoryPathHashDigest : string)
    (unifiedEntries : list UnifiedEntry) (this : t) :
  forEach unifiedEntries (recordChild directoryPathHashDigest) this =
  Ret (Returned tt, recordChildren directoryPathHashDigest unifiedEntries this).
Proof.
  revert this. induction unifiedEntries as [| [k p] es IH]; intros this; [done|].
  simpl. unfold mbind, M_bind, bind. unfold recordChild at 1.
  destruct k; simpl; unfold continue; simpl; apply IH.
Qed.

Lemma forEach_recordFile (paths : list string) (this : t) :
  forEach paths recordFile this = Ret (Returned tt, recordFiles paths this).
Proof.
  revert this. induction paths as [| p ps IH]; intros this; [done|].
  simpl. unfold mbind, M_bind, bind. simpl. unfold continue. simpl. apply IH.
Qed.

Lemma yields_readDirectory (d : string) (this : t) (tr : list Exchange)
    (r : outcome (list string) * t) :
  yields (readDirectory d this) tr r <->
  exists x, tr = [ReadDirectoryExchange d x] /\
    r = match x with
        | inl e => (Thrown e, this)
        | inr unifiedEntries =>
            let this' := recordChildren (buildPathHashDigest d) unifiedEntries this in
            (Returned (childPaths (buildPathHashDigest d) this'), this')
        end.
Proof.
  unfold readDirectory. rewrite yields_bind. split.
  - intros (tr1 & o & s1 & tr2 & Hm & Hf & ->).
    apply yields_await in Hm as (x & -> & [= -> ->]). exists x.
    destruct x as [e | es]; simpl in Hf.
    + destruct Hf as [-> ->]. done.
    + unfold mbind, M_bind, bind in Hf. rewrite forEach_recordChild in Hf.
      simpl in Hf. apply yields_Ret_inv in Hf as [-> ->]. done.
  - intros (x & -> & ->).
    exists [ReadDirectoryExchange d x],
      (match x with inl e => Thrown e | inr v => Returned v end), this, [].
    split; [apply yields_await; by exists x |]. split; [| done].
    destruct x as [e | es]; simpl; [done |].
    unfold mbind, M_bind, bind. rewrite forEach_recordChild. simpl. constructor.
Qed.

Lemma yields_getFilePaths (d : string) (inc exc : list string) (this : t)
    (tr : list Exchange) (r : outcome (list string) * t) :
  yields (getFilePaths d inc exc this) tr r <->
  exists x,
    tr = [GlobExchange {| includePatterns := inc; excludePatterns := exc;
                          absolute := true; currentWorkingDirectory := d |} x] /\
    r = match x with
        | inl e => (Thrown e, this)
        | inr paths => (Returned paths, recordFiles paths this)
        end.
Proof.
  unfold getFilePaths. rewrite yields_bind. split.
  - intros (tr1 & o & s1 & tr2 & Hm & Hf & ->).
    apply yields_await in Hm as (x & -> & [= -> ->]). exists x.
    destruct x as [e | ps]; simpl in Hf.
    + destruct Hf as [-> ->]. done.
    + unfold mbind, M_bind, bind in Hf. rewrite forEach_recordFile in Hf.
      simpl in Hf. apply yields_Ret_inv in Hf as [-> ->]. done.
  - intros (x & -> & ->).
    eexists [_], (match x with inl e => Thrown e | inr v => Returned v end), this, [].
    split; [apply yields_await; by exists x |]. split; [| done].
    destruct x as [e | ps]; simpl; [done |].
    unfold mbind, M_bind, bind. rewrite forEach_recordFile. simpl. constructor.
Qed.

Lemma yields_upsertUnifiedDirectory (p : string) (this : t)
    (tr : list Exchange) (r : outcome (option UnifiedEntry) * t) :
  yields (upsertUnifiedDirectory p this) tr r <->
  match __entries this !! buildPathHashDigest p with
  | Some entry => tr = [] /\ r = (Returned (Some entry), this)
  | None =>
      exists x, tr = [GetUnifiedEntryExchange p x] /\
        r = match x with
            | inl e => (Thrown e, this)
            | inr unifiedEntry =>
                match kind unifiedEntry with
                | directory =>
                    (Returned (Some unifiedEntry),
                     entries_set (buildPathHashDigest p) unifiedEntry this)
                | file => (Returned None, this)
                end
            end
  end.
Proof.
  destruct (__entries this !! buildPathHashDigest p) as [entry |] eqn:Hentry.
  - rewrite (upsertUnifiedDirectory_cached p entry this Hentry).
    split; [apply yields_Ret_inv | intros [-> ->]; constructor].
  - assert (entries_has (buildPathHashDigest p) this = false) as Hhas.
    { apply not_true_is_false. rewrite entries_has_true, Hentry.
      by intros [? ?]. }
    unfold upsertUnifiedDirectory, mbind, M_bind, bind, gets. simpl.
    unfold continue at 1. simpl. rewrite Hhas. simpl. split.
    + intros Hy. apply yields_inv in Hy as (x & tr' & -> & Hy).
      exists x. destruct x as [e | [[] q]]; simpl in Hy;
        apply yields_Ret_inv in Hy as [-> ->]; done.
    + intros (x & -> & ->). apply (yields_Vis (GetUnifiedEntry p) _ x).
      destruct x as [e | [[] q]]; simpl; constructor.
Qed.

Lemma yields_upsertUnifiedFile (p : string) (this : t)
    (tr : list Exchange) (r : outcome (option UnifiedEntry) * t) :
  yields (upsertUnifiedFile p this) tr r <->
  match __entries this !! buildPathHashDigest p with
  | Some entry => tr = [] /\ r = (Returned (Some entry), this)
  | None =>
      exists x, tr = [GetUnifiedEntryExchange p x] /\
        r = match x with
            | inl e => (Thrown e, this)
            | inr unifiedEntry =>
                match kind unifiedEntry with
                | file =>
                    (Returned (Some unifiedEntry),
                     entries_set (buildPathHashDigest p) unifiedEntry this)
                | directory => (Returned None, this)
                end
            end
  end.
Proof.
  destruct (__entries this !! buildPathHashDigest p) as [entry |] eqn:Hentry.
  - rewrite (upsertUnifiedFile_cached p entry this Hentry).
    split; [apply yields_Ret_inv | intros [-> ->]; constructor].
  - assert (entries_has (buildPathHashDigest p) this = false) as Hhas.
    { apply not_true_is_false. rewrite entries_has_true, Hentry.
      by intros [? ?]. }
    unfold upsertUnifiedFile, mbind, M_bind, bind, gets. simpl.
    unfold continue at 1. simpl. rewrite Hhas. simpl. split.
    + intros Hy. apply yields_inv in Hy as (x & tr' & -> & Hy).
      exists x. destruct x as [e | [[] q]]; simpl in Hy;
        apply yields_Ret_inv in Hy as [-> ->]; done.
    + intros (x & -> & ->). apply (yields_Vis (GetUnifiedEntry p) _ x).
      destruct x as [e | [[] q]]; simpl; constructor.
Qed.
End Yields.

(** ** The fields after a call *)

Section Fields.
Import UnifiedFileSystem Run.
Context `{BuildPathHashDigest}.

Lemma cacheAll_snoc (es : list UnifiedEntry) (e : UnifiedEntry)
    (m : gmap string UnifiedEntry) :
  cacheAll (es ++ [e]) m = <[buildPathHashDigest (path e) := e]> (cacheAll es m).
Proof. unfold cacheAll. by rewrite foldl_app. Qed.

Lemma cacheAll_lookup_Some (es : list UnifiedEntry)
    (m : gmap string UnifiedEntry) (k : string) (e : UnifiedEntry) :
  cacheAll es m !! k = Some e ->
  m !! k = Some e \/ (e ∈ es /\ buildPathHashDigest (path e) = k).
Proof.
  induction es as [| e' es IH] using rev_ind; [by left |].
  rewrite cacheAll_snoc.
  destruct (decide (buildPathHashDigest (path e') = k)) as [<- | Hne].
  - rewrite lookup_insert_eq. intros [= ->]. right.
    split; [| done]. apply elem_of_app. right. by apply list_elem_of_singleton.
  - rewrite lookup_insert_ne by done. intros [? | [? ?]]%IH; [by left |].
    right. split; [| done]. apply elem_of_app. by left.
Qed.

Lemma cacheAll_lookup_is_Some (es : list UnifiedEntry)
    (m : gmap string UnifiedEntry) (k : string) :
  is_Some (m !! k) -> is_Some (cacheAll es m !! k).
Proof.
  intros Hm. induction es as [| e' es IH] using rev_ind; [done |].
  rewrite cacheAll_snoc.
  destruct (decide (buildPathHashDigest (path e') = k)) as [<- | Hne].
  - rewrite lookup_insert_eq. eauto.
  - by rewrite lookup_insert_ne.
Qed.

Lemma cacheAll_lookup_elem (es : list UnifiedEntry)
    (m : gmap string UnifiedEntry) (e : UnifiedEntry) :
  e ∈ es ->
  exists e', cacheAll es m !! buildPathHashDigest (path e) = Some e' /\
             e' ∈ es /\
             buildPathHashDigest (path e') = buildPathHashDigest (path e).
Proof.
  induction es as [| e0 es IH] using rev_ind; [by intros ?%elem_of_nil |].
  rewrite cacheAll_snoc. intros [Hin | ->%list_elem_of_singleton]%elem_of_app.
  - destruct (decide (buildPathHashDigest (path e0)
                      = buildPathHashDigest (path e))) as [Heq | Hne].
    + rewrite <- Heq, lookup_insert_eq. exists e0. split; [done |].
      split; [| done]. apply elem_of_app. right. by apply list_elem_of_singleton.
    + rewrite lookup_insert_ne by done.
      destruct (IH Hin) as (e' & ? & ? & ?). exists e'. split; [done |].
      split; [| done]. apply elem_of_app. by left.
  - rewrite lookup_insert_eq. exists e0. split; [done |].
    split; [| done]. apply elem_of_app. right. by apply list_elem_of_singleton.
Qed.

Lemma cacheAll_lookup_notin (es : list UnifiedEntry)
    (m : gmap string UnifiedEntry) (k : string) :
  k ∉ buildPathHashDigest <$> (path <$> es) -> cacheAll es m !! k = m !! k.
Proof.
  intros Hk. destruct (cacheAll es m !! k) as [e |] eqn:Hlook.
  - apply cacheAll_lookup_Some in Hlook as [? | [Hin <-]]; [done |].
    destruct Hk. apply list_elem_of_fmap. exists (path e). split; [done |].
    apply list_elem_of_fmap. eauto.
  - destruct (m !! k) as [e |] eqn:Hm; [| done].
    assert (is_Some (cacheAll es m !! k)) as [? ?]
      by (apply cacheAll_lookup_is_Some; eauto).
    congruence.
Qed.

Lemma recordChildren_snoc (hd : string) (es : list UnifiedEntry)
    (e : UnifiedEntry) (this : t) :
  recordChildren hd (es ++ [e]) this =
  entries_set (buildPathHashDigest (path e)) e
    (directoryFiles_upsert hd (buildPathHashDigest (path e))
       (recordChildren hd es this)).
Proof. unfold recordChildren. by rewrite foldl_app. Qed.

Lemma recordChildren_entries (hd : string) (es : list UnifiedEntry) (this : t) :
  __entries (recordChildren hd es this) = cacheAll es (__entries this).
Proof.
  induction es as [| e es IH] using rev_ind; [done |].
  by rewrite recordChildren_snoc, cacheAll_snoc, <- IH.
Qed.

Lemma recordChildren_changes (hd : string) (es : list UnifiedEntry) (this : t) :
  __changes (recordChildren hd es this) = __changes this.
Proof.
  induction es as [| e es IH] using rev_ind; [done |].
  by rewrite recordChildren_snoc.
Qed.

Lemma upsert_elem (m : LeftRightHashSetManager.t) (l r : string)
    (lr : string * string) :
  lr ∈ LeftRightHashSetManager.upsert m l r <-> lr ∈ m \/ lr = (l, r).
Proof.
  unfold LeftRightHashSetManager.upsert. case_decide as Hin.
  - split; [by left | by intros [? | ->]].
  - by rewrite elem_of_app, list_elem_of_singleton.
Qed.

Lemma recordChildren_directoryFiles (hd : string) (es : list UnifiedEntry)
    (this : t) (lr : string * string) :
  lr ∈ __directoryFiles (recordChildren hd es this) <->
  lr ∈ __directoryFiles this \/
  (lr.1 = hd /\ exists e, e ∈ es /\ lr.2 = buildPathHashDigest (path e)).
Proof.
  induction es as [| e es IH] using rev_ind.
  - simpl. split; [by left |]. intros [? | (_ & e & []%elem_of_nil & _)]. done.
  - rewrite recordChildren_snoc. simpl. rewrite upsert_elem, IH.
    destruct lr as [l r]. simpl. split.
    + intros [[? | (-> & e' & Hin & ->)] | [= -> ->]].
      * by left.
      * right. split; [done |]. exists e'. split; [| done].
        apply elem_of_app. by left.
      * right. split; [done |]. exists e. split; [| done].
        apply elem_of_app. right. by apply list_elem_of_singleton.
    + intros [? | (-> & e' & [Hin | ->%list_elem_of_singleton]%elem_of_app & ->)].
      * by left; left.
      * left. right. eauto.
      * by right.
Qed.

Lemma recordFiles_snoc (ps : list string) (p : string) (this : t) :
  recordFiles (ps ++ [p]) this =
  entries_set (buildPathHashDigest p) (asFile p) (recordFiles ps this).
Proof. unfold recordFiles. by rewrite foldl_app. Qed.

Lemma recordFiles_entries (ps : list string) (this : t) :
  __entries (recordFiles ps this) = cacheAll (asFile <$> ps) (__entries this).
Proof.
  induction ps as [| p ps IH] using rev_ind; [done |].
  rewrite recordFiles_snoc, fmap_app. simpl. by rewrite cacheAll_snoc, <- IH.
Qed.

Lemma recordFiles_changes (ps : list string) (this : t) :
  __changes (recordFiles ps this) = __changes this.
Proof.
  induction ps as [| p ps IH] using rev_ind; [done |].
  by rewrite recordFiles_snoc.
Qed.

Lemma recordFiles_directoryFiles (ps : list string) (this : t) :
  __directoryFiles (recordFiles ps this) = __directoryFiles this.
Proof.
  induction ps as [| p ps IH] using rev_ind; [done |].
  by rewrite recordFiles_snoc.
Qed.

Lemma yields_fieldsAfter {A : Type} (m : prog (outcome A * t))
    (tr : list Exchange) (this' : t) :
  yields (fieldsAfter m) tr this' <-> exists o, yields m tr (o, this').
Proof.
  unfold fieldsAfter. rewrite yields_pbind. split.
  - intros (tr1 & [o s] & tr2 & Hm & [-> ->]%yields_Ret_inv & ->).
    exists o. by rewrite app_nil_r.
  - intros (o & Hm). exists tr, (o, this'), [].
    split; [done |]. split; [constructor | by rewrite app_nil_r].
Qed.

Lemma perform_effect (operation : Operation) (this this' : t)
    (tr : list Exchange) :
  yields (perform operation this) tr this' -> effect this operation tr this'.
Proof.
  destruct operation as [p | p | p | d | p | d inc exc | p | p data]; simpl.
  - intros (o & Hy)%yields_fieldsAfter. unfold upsertUnifiedEntry in Hy.
    apply yields_bind in Hy as (tr1 & o1 & s1 & tr2 & Hdir & Hres & ->).
    apply yields_upsertUnifiedDirectory in Hdir.
    destruct (__entries this !! buildPathHashDigest p) as [entry |] eqn:Hentry.
    { destruct Hdir as [-> [= -> ->]]. simpl in Hres.
      apply yields_Ret_inv in Hres as [-> [= _ ->]]. by constructor. }
    destruct Hdir as (x & -> & Hr). destruct x as [e | u].
    { injection Hr as -> ->. destruct Hres as [-> [= _ ->]]. by constructor. }
    destruct (kind u) eqn:Hkind; injection Hr as -> ->; simpl in Hres.
    + apply yields_upsertUnifiedFile in Hres. rewrite Hentry in Hres.
      destruct Hres as (x & -> & Hr). destruct x as [e | u'].
      { injection Hr as _ ->. by constructor. }
      destruct (kind u'); injection Hr as _ ->.
      * eapply effect_upsert; [by left | done].
      * by constructor.
    + apply yields_Ret_inv in Hres as [-> [= _ ->]].
      eapply effect_upsert; [by left | done].
  - intros (o & Hy)%yields_fieldsAfter.
    apply yields_upsertUnifiedDirectory in Hy.
    destruct (__entries this !! buildPathHashDigest p) as [entry |] eqn:Hentry.
    { destruct Hy as [-> [= _ ->]]. by constructor. }
    destruct Hy as (x & -> & Hr). destruct x as [e | u].
    { injection Hr as _ ->. by constructor. }
    destruct (kind u); injection Hr as _ ->.
    + by constructor.
    + eapply effect_upsert; [right; by left | done].
  - intros (o & Hy)%yields_fieldsAfter.
    apply yields_upsertUnifiedFile in Hy.
    destruct (__entries this !! buildPathHashDigest p) as [entry |] eqn:Hentry.
    { destruct Hy as [-> [= _ ->]]. by constructor. }
    destruct Hy as (x & -> & Hr). destruct x as [e | u].
    { injection Hr as _ ->. by constructor. }
    destruct (kind u); injection Hr as _ ->.
    + eapply effect_upsert; [right; by right | done].
    + by constructor.
  - intros (o & Hy)%yields_fieldsAfter.
    apply yields_readDirectory in Hy as (x & -> & Hr).
    destruct x as [e | es]; injection Hr as _ ->; by constructor.
  - intros (o & Hy)%yields_fieldsAfter.
    unfold readFile, mbind, M_bind, bind, gets in Hy. simpl in Hy.
    unfold continue in Hy. simpl in Hy.
    destruct (JSMap.get (__changes this) (buildPathHashDigest p)) as [[data |] |].
    + apply yields_Ret_inv in Hy as [-> [= _ ->]]. by constructor.
    + apply yields_Ret_inv in Hy as [-> [= _ ->]]. by constructor.
    + apply yields_inv in Hy as (x & tr' & -> & Hy).
      apply yields_Ret_inv in Hy as [-> [= _ ->]]. by constructor.
  - intros (o & Hy)%yields_fieldsAfter.
    apply yields_getFilePaths in Hy as (x & -> & Hr).
    destruct x as [e | ps]; injection Hr as _ ->; by constructor.
  - intros [-> ->]%yields_Ret_inv. constructor.
  - intros [-> ->]%yields_Ret_inv. constructor.
Qed.

(** Where a cached entry can come from: it was there before the call, or
    the call upserted a path whose key was free, or it is an entry (named by
    the caller or reported by a collaborator) recorded under the key of its
    own path, as a directory only if a listing said so. *)
Lemma effect_entries (operation : Operation) (this this' : t)
    (tr : list Exchange) (k : string) (e' : UnifiedEntry) :
  effect this operation tr this' ->
  __entries this' !! k = Some e' ->
  __entries this !! k = Some e' \/
  (__entries this !! k = None /\
   k ∈ buildPathHashDigest <$> operationPaths operation) \/
  (buildPathHashDigest (path e') = k /\
   path e' ∈ operationPaths operation ++ (tr ≫= exchangePaths) /\
   (kind e' = directory -> path e' ∈ (tr ≫= exchangeDirectories))).
Proof.
  intros Heff Hlook. destruct Heff as [op tr _ | op p x tr Hop Hfree
    | d es | d inc exc ga ps | p | p data]; simpl in *.
  - by left.
  - destruct (decide (buildPathHashDigest p = k)) as [<- | Hne].
    + right. left. split; [done |].
      destruct Hop as [-> | [-> | ->]]; simpl; by apply list_elem_of_singleton.
    + left. by rewrite lookup_insert_ne in Hlook.
  - rewrite recordChildren_entries in Hlook.
    apply cacheAll_lookup_Some in Hlook as [? | [Hin Hk]]; [by left |].
    right. right. split; [done |]. rewrite !app_nil_r. split.
    + apply list_elem_of_fmap. eauto.
    + intros Hkind. apply list_elem_of_fmap. exists e'. split; [done |].
      by apply list_elem_of_filter.
  - rewrite recordFiles_entries in Hlook.
    apply cacheAll_lookup_Some in Hlook as [? | [Hin Hk]]; [by left |].
    right. right. split; [done |].
    apply list_elem_of_fmap in Hin as (q & -> & Hq). simpl.
    rewrite app_nil_r. done.
  - destruct (decide (buildPathHashDigest p = k)) as [<- | Hne].
    + rewrite lookup_insert_eq in Hlook. injection Hlook as <-. simpl.
      right. right. split; [done |]. split; [| done]. by left.
    + left. by rewrite lookup_insert_ne in Hlook.
  - destruct (decide (buildPathHashDigest p = k)) as [<- | Hne].
    + rewrite lookup_insert_eq in Hlook. injection Hlook as <-. simpl.
      right. right. split; [done |]. split; [| done]. by left.
    + left. by rewrite lookup_insert_ne in Hlook.
Qed.

(** The cache never forgets a key. *)
Lemma effect_entries_is_Some (operation : Operation) (this this' : t)
    (tr : list Exchange) (k : string) :
  effect this operation tr this' ->
  is_Some (__entries this !! k) -> is_Some (__entries this' !! k).
Proof.
  intros Heff Hsome. destruct Heff as [op tr _ | op p x tr Hop Hfree
    | d es | d inc exc ga ps | p | p data]; simpl in *.
  - done.
  - rewrite lookup_insert_is_Some'. by right.
  - rewrite recordChildren_entries. by apply cacheAll_lookup_is_Some.
  - rewrite recordFiles_entries. by apply cacheAll_lookup_is_Some.
  - rewrite lookup_insert_is_Some'. by right.
  - rewrite lookup_insert_is_Some'. by right.
Qed.
End Fields.

(** ** Whole runs *)

Section Runs.
Import UnifiedFileSystem Run.
Context `{BuildPathHashDigest}.

Lemma steps_entries_is_Some (this this' : t)
    (history : list (Operation * list Exchange)) (k : string) :
  steps this history this' ->
  is_Some (__entries this !! k) -> is_Some (__entries this' !! k).
Proof.
  induction 1 as [| this this' this'' op tr history Hy _ IH]; [done |].
  intros Hsome. apply IH.
  eapply effect_entries_is_Some; [by apply perform_effect | done].
Qed.

Lemma steps_unmentioned (this this' : t)
    (history : list (Operation * list Exchange)) (k : string) :
  steps this history this' ->
  __entries this !! k = None ->
  k ∉ buildPathHashDigest <$> mentioned history ->
  __entries this' !! k = None.
Proof.
  induction 1 as [| this this' this'' op tr history Hy _ IH]; [done |].
  intros Hnone Hk. unfold mentioned in Hk. rewrite bind_cons, fmap_app in Hk.
  apply not_elem_of_app in Hk as [Hstep Hrest]. simpl in Hstep.
  apply IH; [| done].
  destruct (__entries this' !! k) as [e' |] eqn:Hlook; [| done].
  exfalso. eapply effect_entries in Hlook; [| by apply perform_effect].
  destruct Hlook as [? | [[_ Hin] | (<- & Hin & _)]]; [congruence | ..].
  - apply Hstep. rewrite fmap_app. apply elem_of_app. by left.
  - apply Hstep. by apply list_elem_of_fmap_2.
Qed.


Lemma effect_backed (operation : Operation) (this this' : t)
    (tr : list Exchange) (k : string) :
  effect this operation tr this' -> backed k this -> backed k this'.
Proof.
  intros Heff (e & Hlook & Hk).
  assert (is_Some (__entries this' !! k)) as [e' Hlook'].
  { eapply effect_entries_is_Some; [done |]. rewrite Hlook. eauto. }
  exists e'. split; [done |].
  eapply effect_entries in Hlook' as Hfrom; [| done].
  destruct Hfrom as [? | [[? _] | (? & _)]]; congruence.
Qed.


Lemma effect_coherent (operation : Operation) (this this' : t)
    (tr : list Exchange) :
  effect this operation tr this' -> coherent this -> coherent this'.
Proof.
  intros Heff (Hnd & Hledger & Hindex).
  pose proof (fun k => effect_backed _ _ _ _ k Heff) as Hkeep.
  destruct Heff as [op tr _ | op p x tr Hop Hfree
    | d es | d inc exc ga ps | p | p data].
  - done.
  - split; [done |]. split; intros ??; apply Hkeep; auto.
  - split; [by rewrite recordChildren_changes |]. split.
    + intros k. rewrite recordChildren_changes. intros ?. apply Hkeep; auto.
    + intros lr [? | (_ & e & Hin & ->)]%recordChildren_directoryFiles.
      { apply Hkeep; auto. }
      destruct (cacheAll_lookup_elem es (__entries this) e Hin)
        as (e' & Hlook & _ & Heq).
      exists e'. by rewrite recordChildren_entries.
  - split; [by rewrite recordFiles_changes |]. split.
    + intros k. rewrite recordFiles_changes. intros ?. apply Hkeep; auto.
    + intros lr. rewrite recordFiles_directoryFiles. intros ?.
      apply Hkeep; auto.
  - split; [by apply JSMap_keys_set_NoDup |]. split.
    + intros k [-> | Hin]%JSMap_keys_set; [| apply Hkeep; auto].
      exists (asFile p). split; [apply lookup_insert_eq | done].
    + intros lr ?. apply Hkeep; auto.
  - split; [by apply JSMap_keys_set_NoDup |]. split.
    + intros k [-> | Hin]%JSMap_keys_set; [| apply Hkeep; auto].
      exists (asFile p). split; [apply lookup_insert_eq | done].
    + intros lr ?. apply Hkeep; auto.
Qed.

Lemma coherent_new : coherent new.
Proof.
  split; [constructor |].
  split; [intros ? []%elem_of_nil | intros ? []%elem_of_nil].
Qed.

Lemma steps_coherent (this this' : t)
    (history : list (Operation * list Exchange)) :
  steps this history this' -> coherent this -> coherent this'.
Proof.
  induction 1 as [| this this' this'' op tr history Hy _ IH]; [done |].
  intros Hco. apply IH. eapply effect_coherent; [by apply perform_effect | done].
Qed.



Lemma steps_app (this this' this'' : t)
    (history history' : list (Operation * list Exchange)) :
  steps this history this' -> steps this' history' this'' ->
  steps this (history ++ history') this''.
Proof.
  induction 1 as [| ? ? ? op tr history Hy _ IH]; [done |].
  intros Hrest. simpl. econstructor; [done | by apply IH].
Qed.

(** C6: a path that a run from a fresh instance has not mentioned (it is
    the argument of no upsert, [deleteFile] or [upsertData], and no listing
    or glob answered with a path of the same key) does not exist and is no
    directory.  Both lookups are functions of the fields alone, so they
    cannot reach the backing store, whatever it holds for the path. *)
Theorem unobserved_path_is_absent (p : string) (this : t)
    (history : list (Operation * list Exchange)) :
  steps new history this ->
  buildPathHashDigest p ∉ buildPathHashDigest <$> mentioned history ->
  exists_ p this = false /\ isDirectory p this = false.
Proof.
  intros Hsteps Hp.
  assert (__entries this !! buildPathHashDigest p = None) as Hnone
    by (eapply steps_unmentioned; [done | apply lookup_empty | done]).
  unfold exists_, isDirectory, entries_has. rewrite Hnone. split.
  - apply bool_decide_eq_false. by intros [? ?].
  - by apply bool_decide_eq_false.
Qed.

(** ** The ledger and the external commands *)

Lemma pushExternalFileCommands_app (this : t)
    (commands : list ExternalFileCommand) (change : string * option string) :
  pushExternalFileCommands this commands change
  = commands ++ commandsFor this change.
Proof.
  destruct change as [k [data |]]; unfold commandsFor; simpl;
    destruct (__entries this !! k); simpl; by rewrite ?app_nil_r.
Qed.

Lemma buildExternalFileCommands_bind (this : t) :
  buildExternalFileCommands this = __changes this ≫= commandsFor this.
Proof.
  unfold buildExternalFileCommands.
  enough (forall l acc, foldl (pushExternalFileCommands this) acc l
                        = acc ++ (l ≫= commandsFor this)) as Hgen
    by apply (Hgen _ []).
  induction l as [| change l IH]; intros acc; cbn [foldl].
  - by rewrite app_nil_r.
  - by rewrite IH, pushExternalFileCommands_app, bind_cons, app_assoc.
Qed.

Lemma commandsFor_backed (this : t) (k : string) (v : option string)
    (c : ExternalFileCommand) :
  backed k this -> c ∈ commandsFor this (k, v) ->
  buildPathHashDigest (externalPath c) = k.
Proof.
  intros (e & Hlook & Hk). unfold commandsFor. simpl. rewrite Hlook.
  destruct v; intros ->%list_elem_of_singleton; done.
Qed.

Lemma commands_keys (this : t) (l : list (string * option string))
    (c : ExternalFileCommand) :
  (forall kv, kv ∈ l -> backed kv.1 this) ->
  c ∈ l ≫= commandsFor this ->
  buildPathHashDigest (externalPath c) ∈ l.*1.
Proof.
  intros Hl ([k v] & Hc & Hkv)%list_elem_of_bind.
  erewrite commandsFor_backed; [| by apply (Hl (k, v)) | done].
  apply list_elem_of_fmap. by exists (k, v).
Qed.

Lemma commands_paths_NoDup (this : t) (l : list (string * option string)) :
  NoDup l.*1 -> (forall kv, kv ∈ l -> backed kv.1 this) ->
  NoDup (externalPath <$> (l ≫= commandsFor this)).
Proof.
  induction l as [| [k v] l IH]; simpl; [constructor |].
  intros [Hk Hnd]%NoDup_cons Hl.
  assert (forall kv, kv ∈ l -> backed kv.1 this) as Hl'
    by (intros; apply Hl; by right).
  rewrite fmap_app. apply NoDup_app. split; [| split; [| by apply IH]].
  - unfold commandsFor. simpl. destruct (__entries this !! k); [| constructor].
    destruct v; apply NoDup_singleton.
  - intros x (c & -> & Hc)%list_elem_of_fmap (c' & Heq & Hc')%list_elem_of_fmap.
    apply Hk. rewrite <- (commandsFor_backed this k v c);
      [| apply (Hl (k, v)); by left | done].
    rewrite Heq. by apply (commands_keys this).
Qed.

Lemma filter_none {A : Type} (P : A -> Prop) `{forall x, Decision (P x)}
    (l : list A) :
  (forall x, x ∈ l -> ~ P x) -> filter P l = [].
Proof.
  induction l as [| x l IH]; [done |]. intros Hl.
  rewrite filter_cons_False by (apply Hl; by left).
  apply IH. intros y ?. apply Hl. by right.
Qed.

Lemma commands_at_path (this : t) (l : list (string * option string))
    (p : string) (v : option string) :
  NoDup l.*1 -> (forall kv, kv ∈ l -> backed kv.1 this) ->
  (buildPathHashDigest p, v) ∈ l ->
  __entries this !! buildPathHashDigest p = Some (asFile p) ->
  filter (fun c => externalPath c = p) (l ≫= commandsFor this)
  = commandsFor this (buildPathHashDigest p, v).
Proof.
  intros Hnd Hl Hin Hentry.
  induction l as [| [k v'] l IH]; [by apply elem_of_nil in Hin |].
  apply NoDup_cons in Hnd as [Hk Hnd].
  assert (forall kv, kv ∈ l -> backed kv.1 this) as Hl'
    by (intros; apply Hl; by right).
  rewrite bind_cons, filter_app.
  destruct (decide (k = buildPathHashDigest p)) as [-> | Hne].
  - assert (v' = v) as ->.
    { apply elem_of_cons in Hin as [[= ->] | Hin]; [done |].
      destruct Hk. apply list_elem_of_fmap. by exists (buildPathHashDigest p, v). }
    rewrite (filter_none _ (l ≫= _)).
    + rewrite app_nil_r. unfold commandsFor. simpl. rewrite Hentry.
      destruct v; by rewrite filter_cons_True.
    + intros c Hc <-. apply Hk. by eapply commands_keys.
  - rewrite filter_none.
    + simpl. apply IH; [done | done |].
      apply elem_of_cons in Hin as [[= ? ?] | Hin]; [congruence | done].
    + intros c Hc <-. apply Hne. symmetry.
      eapply commandsFor_backed; [apply (Hl (k, v')); by left | done].
Qed.

Lemma JSMap_get_elem {V : Type} (m : JSMap.t V) (k : string) (v : V) :
  JSMap.get m k = Some v -> (k, v) ∈ m.
Proof.
  induction m as [| [k' v'] m IH]; simpl; [done |].
  case_decide as Hk; [intros [= ->]; subst; by left | right; auto].
Qed.

(** C4: in every state that a run from a fresh instance reaches, the ledger
    holds at most one entry per key and the external command list names
    each path at most once; a stage, content or deletion, replaces what was
    staged for the key before; and after [upsertData(p, a)] then
    [upsertData(p, b)] the commands for [p] are the one command
    [upsertFile {p, b}]. *)
Theorem last_write_wins (this : t)
    (history : list (Operation * list Exchange)) :
  steps new history this ->
  NoDup (JSMap.keys (__changes this)) /\
  NoDup (externalPath <$> buildExternalFileCommands this) /\
  (forall p data,
     JSMap.get (__changes (upsertData p data this)) (buildPathHashDigest p)
     = Some (Some data)) /\
  (forall p,
     JSMap.get (__changes (deleteFile p this)) (buildPathHashDigest p)
     = Some None) /\
  (forall p a b,
     filter (fun c => externalPath c = p)
       (buildExternalFileCommands (upsertData p b (upsertData p a this)))
     = [ExternalUpsertFile p b]).
Proof.
  intros Hsteps.
  assert (coherent this) as Hco by (eapply steps_coherent; [done | apply coherent_new]).
  split; [apply Hco |]. split.
  { rewrite buildExternalFileCommands_bind.
    apply commands_paths_NoDup; [apply Hco |].
    intros [k v] Hkv. apply Hco. apply list_elem_of_fmap. by exists (k, v). }
  split; [intros; apply JSMap_get_set_eq |].
  split; [intros; apply JSMap_get_set_eq |].
  intros p a b. set (this' := upsertData p b (upsertData p a this)).
  assert (coherent this') as (Hnd & Hledger & _).
  { eapply effect_coherent; [apply effect_upsertData |].
    eapply effect_coherent; [apply effect_upsertData | done]. }
  rewrite buildExternalFileCommands_bind.
  rewrite (commands_at_path this' _ p (Some b)).
  - unfold commandsFor. simpl. by rewrite lookup_insert_eq.
  - done.
  - intros [k v] Hkv. apply Hledger. apply list_elem_of_fmap. by exists (k, v).
  - apply JSMap_get_elem. apply JSMap_get_set_eq.
  - apply lookup_insert_eq.
Qed.

(** ** The directory membership index *)


End Runs.

(** ** The interpreter *)

Lemma sameRuns_bind {F A B : Type} (m : M F A) (f g : A -> M F B) :
  (forall a, sameRuns (f a) (g a)) -> sameRuns (m ≫= f) (m ≫= g).
Proof.
  intros Hfg s tr r. rewrite !yields_bind.
  split; intros (tr1 & o & s1 & tr2 & Hm & Hres & ->);
    exists tr1, o, s1, tr2; (split; [done |]); (split; [| done]);
    destruct o; simpl in *; try done; by apply Hfg.
Qed.

Lemma sameRuns_refl {F A : Type} (m : M F A) : sameRuns m m.
Proof. by intros s tr r. Qed.

Lemma sameRuns_forEach {F A : Type} (xs : list A) (f g : A -> M F unit) :
  (forall x, sameRuns (f x) (g x)) -> sameRuns (forEach xs f) (forEach xs g).
Proof.
  intros Hfg. induction xs as [| x xs IH]; [apply sameRuns_refl |].
  intros s tr r. simpl. rewrite !yields_bind.
  split; intros (tr1 & o & s1 & tr2 & Hm & Hres & ->);
    exists tr1, o, s1, tr2; (split; [by apply Hfg |]); (split; [| done]);
    destruct o; simpl in *; try done; by apply IH.
Qed.

Section Interpreter.
Import Repomod.
Context {F Dependencies : Type}.
Implicit Types (api : API F Dependencies) (repomod : Repomod F Dependencies).

(** A command other than [handleDirectory] never reaches the directory
    hook: the interpreter runs it alike whichever hook the repomod has. *)
Lemma handleCommand_ignores_handleDirectory (fuel : nat) api repomod
    (hook : option (DirectoryAPI F Dependencies -> string -> gmap string string
                    -> M F (list DirectoryCommand)))
    (command : Command) :
  notHandleDirectory command ->
  sameRuns (handleCommand fuel api repomod command)
           (handleCommand fuel api (withHandleDirectory hook repomod) command).
Proof.
  revert command. induction fuel as [| fuel IH]; intros command Hcommand;
    [apply sameRuns_refl |].
  destruct command as [[path options | path options]
    | [path options | path | ? ? ? | ? ? ?] | [data path |]];
    try done; try apply sameRuns_refl; simpl.
  - apply sameRuns_bind. intros [entry |]; [| apply sameRuns_refl].
    apply sameRuns_bind. intros commands.
    apply sameRuns_forEach. intros command. by apply IH.
  - apply sameRuns_bind. intros data.
    apply sameRuns_bind. intros command. by apply IH.
Qed.

(** C7: [moveFile] and [copyFile] are dispatched to nothing.  For any
    facade, repomod and positive budget the interpreter is a bare return:
    it calls no facade method, no hook and no collaborator, hands back the
    fields (entry cache, index and ledger) as they were, and runs no
    further command. *)
Theorem moveFile_copyFile_are_inert (fuel : nat) api repomod
    (oldPath newPath : string) (options : gmap string string) (this : F) :
  handleCommand (S fuel) api repomod (MoveFile oldPath newPath options) this
    = Ret (Returned tt, this) /\
  handleCommand (S fuel) api repomod (CopyFile oldPath newPath options) this
    = Ret (Returned tt, this).
Proof. split; reflexivity. Qed.

(** C9: with include patterns declared, [handleDirectory] first resolves
    them with [getFilePaths], then runs one [handleFile] per matched path,
    in order and each to its end, and only then calls
    [upsertFacadeDirectory] on the path of the command; when that answers
    [null] the command is over.  The exchanges with the collaborators are
    those of the three stages, in that order, the fields are as
    [upsertFacadeDirectory] left them, and this is so whichever directory
    hook the repomod carries: none is run. *)
Theorem handleDirectory_patterns_first (fuel : nat) api repomod
    (path : string) (options : gmap string string)
    (patterns paths : list string) (this this1 this2 this3 : F)
    (tr1 tr2 tr3 : list Exchange) :
  includePatterns repomod = Some patterns ->
  yields (getFilePaths (facadeFileSystem api) path patterns
            (default [] (excludePatterns repomod)) this)
         tr1 (Returned paths, this1) ->
  yields (forEach paths (fun p =>
            handleCommand fuel api repomod (HandleFile p options)) this1)
         tr2 (Returned tt, this2) ->
  yields (upsertFacadeDirectory (facadeFileSystem api) path this2)
         tr3 (Returned None, this3) ->
  forall hook,
    yields (handleCommand (S fuel) api (withHandleDirectory hook repomod)
              (HandleDirectory path options) this)
           (tr1 ++ tr2 ++ tr3) (Returned tt, this3).
Proof.
  intros Hpatterns Hglob Hfiles Hupsert hook. simpl. rewrite Hpatterns.
  apply yields_bind. exists (tr1 ++ tr2), (Returned tt), this2, tr3.
  split; [| split; [| by rewrite app_assoc]].
  - apply yields_bind. exists tr1, (Returned paths), this1, tr2.
    split; [done |]. split; [| done]. simpl.
    apply (sameRuns_forEach paths
             (fun p => handleCommand fuel api repomod (HandleFile p options)));
      [| exact Hfiles].
    intros p. by apply handleCommand_ignores_handleDirectory.
  - simpl. apply yields_bind. exists tr3, (Returned None), this3, [].
    split; [done |]. split; [constructor | by rewrite app_nil_r].
Qed.
End Interpreter.

(** ** The worked example, claim by claim *)


Lemma unobserved_path_is_absent_witness :
  let this := @UnifiedFileSystem.upsertData identityDigest "/a" "x"
                UnifiedFileSystem.new in
  let history := [(Run.DoUpsertData "/a" "x", [])] in
  @Run.steps identityDigest UnifiedFileSystem.new history this /\
  @UnifiedFileSystem.exists_ identityDigest "/b" this = false /\
  @UnifiedFileSystem.isDirectory identityDigest "/b" this = false.
Proof.
  intros this history.
  assert (@Run.steps identityDigest UnifiedFileSystem.new history this) as Hsteps.
  { econstructor; [| constructor]. constructor. }
  split; [exact Hsteps |].
  apply (@unobserved_path_is_absent identityDigest "/b" this history Hsteps).
  intros Hin. vm_compute in Hin. apply list_elem_of_singleton in Hin.
  discriminate Hin.
Defined.



Lemma last_write_wins_witness :
  let this := @UnifiedFileSystem.upsertData identityDigest "/q" "old"
                UnifiedFileSystem.new in
  @Run.steps identityDigest UnifiedFileSystem.new
    [(Run.DoUpsertData "/q" "old", [])] this /\
  filter (fun c => externalPath c = "/p"%string)
    (UnifiedFileSystem.buildExternalFileCommands
       (@UnifiedFileSystem.upsertData identityDigest "/p" "b"
          (@UnifiedFileSystem.upsertData identityDigest "/p" "a" this)))
  = [ExternalUpsertFile "/p" "b"].
Proof.
  intros this.
  assert (@Run.steps identityDigest UnifiedFileSystem.new
            [(Run.DoUpsertData "/q" "old", [])] this) as Hsteps.
  { econstructor; [| constructor]. constructor. }
  split; [exact Hsteps |].
  destruct (@last_write_wins identityDigest this _ Hsteps)
    as (_ & _ & _ & _ & Hlast).
  apply Hlast.
Defined.


Lemma handleDirectory_patterns_first_witness :
  let matched := ["/site/a.index.html"%string] in
  let notADirectory := {| kind := file; path := "/site" |} in
  let this1 := @Run.recordFiles identityDigest matched UnifiedFileSystem.new in
  let tr1 := [GlobExchange Example.globArguments (inr matched)] in
  let tr2 := [ReadFileExchange "/site/a.index.html" (inr "aaa"%string)] in
  let tr3 := [GetUnifiedEntryExchange "/site" (inr notADirectory)] in
  yields (Repomod.getFilePaths (Repomod.facadeFileSystem Example.api) "/site"
            ["**/*.index.html"%string] [] UnifiedFileSystem.new)
    tr1 (Returned matched, this1) /\
  yields (forEach matched (fun p =>
            Repomod.handleCommand 3 Example.api Example.repomod
              (Repomod.OfDirectoryCommand (Repomod.HandleFile p ∅))) this1)
    tr2 (Returned tt, this1) /\
  yields (Repomod.upsertFacadeDirectory (Repomod.facadeFileSystem Example.api)
            "/site" this1)
    tr3 (Returned None, this1) /\
  yields (Repomod.handleCommand 4 Example.api
            (Repomod.withHandleDirectory (Some Example.failingHook)
               Example.repomod)
            (Repomod.OfDirectoryCommand (Repomod.HandleDirectory "/site" ∅)) UnifiedFileSystem.new)
    (tr1 ++ tr2 ++ tr3) (Returned tt, this1).
Proof.
  intros matched notADirectory this1 tr1 tr2 tr3.
  assert (yields (Repomod.getFilePaths (Repomod.facadeFileSystem Example.api)
                    "/site" ["**/*.index.html"%string] [] UnifiedFileSystem.new)
            tr1 (Returned matched, this1)) as Hglob.
  { subst tr1. answer (@inr exn _ matched). finished. }
  assert (yields (forEach matched (fun p =>
                    Repomod.handleCommand 3 Example.api Example.repomod
                      (Repomod.OfDirectoryCommand (Repomod.HandleFile p ∅))) this1)
            tr2 (Returned tt, this1)) as Hfiles.
  { subst tr2. answer (@inr exn _ "aaa"%string). finished. }
  assert (yields (Repomod.upsertFacadeDirectory
                    (Repomod.facadeFileSystem Example.api) "/site" this1)
            tr3 (Returned None, this1)) as Hupsert.
  { subst tr3. answer (@inr exn _ notADirectory). finished. }
  split; [exact Hglob |]. split; [exact Hfiles |]. split; [exact Hupsert |].
  exact (handleDirectory_patterns_first 3 Example.api Example.repomod "/site" ∅
           ["**/*.index.html"%string] matched
           UnifiedFileSystem.new this1 this1 this1 tr1 tr2 tr3
           eq_refl Hglob Hfiles Hupsert (Some Example.failingHook)).
Defined.

(** The ledger is read in the order in which its keys were first staged: a
    later stage for ["/p"] replaces the content and keeps the place. *)
Example ledger_keeps_first_insertion_order :
  UnifiedFileSystem.buildExternalFileCommands
    (@UnifiedFileSystem.upsertData identityDigest "/p" "b"
       (@UnifiedFileSystem.deleteFile identityDigest "/q"
          (@UnifiedFileSystem.upsertData identityDigest "/p" "a"
             UnifiedFileSystem.new)))
  = [ExternalUpsertFile "/p" "b"; ExternalDeleteFile "/q"].
Proof. vm_compute. reflexivity. Qed.

(** A deletion staged after content wins as well. *)
Example deletion_replaces_staged_content :
  UnifiedFileSystem.buildExternalFileCommands
    (@UnifiedFileSystem.deleteFile identityDigest "/p"
       (@UnifiedFileSystem.upsertData identityDigest "/p" "a"
          UnifiedFileSystem.new))
  = [ExternalDeleteFile "/p"].
Proof. vm_compute. reflexivity. Qed.

(** * Further properties of the code *)

(** ** The upserts *)

Section Upserts.
Import UnifiedFileSystem Run.
Context `{BuildPathHashDigest}.


(** What [upsertUnifiedEntry] does on a path whose key is not cached. *)
Lemma yields_upsertUnifiedEntry_uncached (p : string) (this : t)
    (tr : list Exchange) (r : outcome (option UnifiedEntry) * t) :
  __entries this !! buildPathHashDigest p = None ->
  yields (upsertUnifiedEntry p this) tr r <->
  (exists e, tr = [GetUnifiedEntryExchange p (inl e)] /\ r = (Thrown e, this)) \/
  (exists u, kind u = directory /\
     tr = [GetUnifiedEntryExchange p (inr u)] /\
     r = (Returned (Some u), entries_set (buildPathHashDigest p) u this)) \/
  (exists u x, kind u = file /\
     tr = [GetUnifiedEntryExchange p (inr u); GetUnifiedEntryExchange p x] /\
     r = match x with
         | inl e => (Thrown e, this)
         | inr u' =>
             match kind u' with
             | file =>
                 (Returned (Some u'),
                  entries_set (buildPathHashDigest p) u' this)
             | directory => (Returned None, this)
             end
         end).
Proof.
  intros Hnone. unfold upsertUnifiedEntry. rewrite yields_bind. split.
  - intros (tr1 & o & s1 & tr2 & Hdir & Hres & ->).
    apply yields_upsertUnifiedDirectory in Hdir. rewrite Hnone in Hdir.
    destruct Hdir as (x & -> & Hr). destruct x as [e | u].
    { injection Hr as -> ->. destruct Hres as [-> ->]. left. eauto. }
    destruct (kind u) eqn:Hkind; injection Hr as -> ->; simpl in Hres.
    + apply yields_upsertUnifiedFile in Hres. rewrite Hnone in Hres.
      destruct Hres as (x & -> & ->). right. right. exists u, x. done.
    + apply yields_Ret_inv in Hres as [-> ->]. right. left. exists u. done.
  - intros [(e & -> & ->) | [(u & Hkind & -> & ->) | (u & x & Hkind & -> & ->)]].
    + exists [GetUnifiedEntryExchange p (inl e)], (Thrown e), this, [].
      split; [| done]. apply yields_upsertUnifiedDirectory. rewrite Hnone.
      by exists (inl e).
    + exists [GetUnifiedEntryExchange p (inr u)], (Returned (Some u)),
        (entries_set (buildPathHashDigest p) u this), [].
      split; [| split; [constructor | done]].
      apply yields_upsertUnifiedDirectory. rewrite Hnone.
      exists (inr u). by rewrite Hkind.
    + exists [GetUnifiedEntryExchange p (inr u)], (Returned None), this,
        [GetUnifiedEntryExchange p x].
      split; [| split; [| done]].
      * apply yields_upsertUnifiedDirectory. rewrite Hnone.
        exists (inr u). by rewrite Hkind.
      * simpl. apply yields_upsertUnifiedFile. rewrite Hnone. by exists x.
Qed.





(** X4: [upsertUnifiedEntry] on a path whose key is not cached tries the
    directory first and then the file, each with a call of its own: a
    directory costs one call to the backing store, a file two, and the
    entry that is cached and returned for a file is the one of the second
    answer.  If the two answers disagree (a file, then a directory) the
    result is [null] and nothing is cached; a rejection of either call is
    rethrown with nothing cached. *)
Theorem upsertUnifiedEntry_asks_per_kind (p : string) (this : t)
    (tr : list Exchange) (r : outcome (option UnifiedEntry) * t) :
  __entries this !! buildPathHashDigest p = None ->
  yields (upsertUnifiedEntry p this) tr r <->
  (exists e, tr = [GetUnifiedEntryExchange p (inl e)] /\ r = (Thrown e, this)) \/
  (exists u, kind u = directory /\
     tr = [GetUnifiedEntryExchange p (inr u)] /\
     r = (Returned (Some u), entries_set (buildPathHashDigest p) u this)) \/
  (exists u x, kind u = file /\
     tr = [GetUnifiedEntryExchange p (inr u); GetUnifiedEntryExchange p x] /\
     r = match x with
         | inl e => (Thrown e, this)
         | inr u' =>
             match kind u' with
             | file =>
                 (Returned (Some u'),
                  entries_set (buildPathHashDigest p) u' this)
             | directory => (Returned None, this)
             end
         end).
Proof. apply yields_upsertUnifiedEntry_uncached. Qed.
End Upserts.

(** ** Reading, globbing and staging *)

Lemma JSMap_set_set {V : Type} (m : JSMap.t V) (key : string) (v v' : V) :
  JSMap.set (JSMap.set m key v) key v' = JSMap.set m key v'.
Proof.
  induction m as [| [k w] m IH]; simpl.
  - by rewrite decide_True.
  - destruct (decide (k = key)) as [-> | Hne]; simpl.
    + by rewrite decide_True.
    + rewrite decide_False by done. by rewrite IH.
Qed.

Section ReadGlobStage.
Import UnifiedFileSystem Run.
Context `{BuildPathHashDigest}.


(** X6: a rejected listing and a rejected glob are rethrown as they are,
    with every field left as it was; unlike [readFile], [readDirectory] and
    [getFilePaths] do not recover. *)
Theorem listing_and_glob_rejections_are_rethrown (d : string)
    (inc exc : list string) (this : t) (e : exn) :
  (forall r, yields (readDirectory d this) [ReadDirectoryExchange d (inl e)] r
             <-> r = (Thrown e, this)) /\
  (forall r, yields (getFilePaths d inc exc this)
               [GlobExchange {| includePatterns := inc; excludePatterns := exc;
                                absolute := true;
                                currentWorkingDirectory := d |} (inl e)] r
             <-> r = (Thrown e, this)).
Proof.
  split; intros r.
  - rewrite yields_readDirectory. split.
    + by intros (x & [= <-] & ->).
    + intros ->. by exists (inl e).
  - rewrite yields_getFilePaths. split.
    + by intros (x & [= <-] & ->).
    + intros ->. by exists (inl e).
Qed.

(** X7: [getFilePaths] hands back the answer of the glob as it is, and
    afterwards every path of the answer exists and is no directory, also
    one that was cached as a directory before: the matches are recorded as
    files without asking the backing store what they are.  The ledger and
    the index are not touched. *)
Theorem getFilePaths_records_files (d : string) (inc exc paths : list string)
    (this this' : t) (tr : list Exchange) :
  yields (getFilePaths d inc exc this) tr (Returned paths, this') ->
  tr = [GlobExchange {| includePatterns := inc; excludePatterns := exc;
                        absolute := true; currentWorkingDirectory := d |}
          (inr paths)] /\
  __changes this' = __changes this /\
  __directoryFiles this' = __directoryFiles this /\
  forall p, p ∈ paths -> exists_ p this' = true /\ isDirectory p this' = false.
Proof.
  intros Hy. apply yields_getFilePaths in Hy as (x & -> & Hr).
  destruct x as [e | ps]; [done |]. injection Hr as <- ->.
  split; [done |]. split; [apply recordFiles_changes |].
  split; [apply recordFiles_directoryFiles |].
  intros p Hp.
  destruct (cacheAll_lookup_elem (asFile <$> paths) (__entries this) (asFile p))
    as (e' & Hlook & He' & _); [by apply list_elem_of_fmap_2 |].
  apply list_elem_of_fmap in He' as (q & -> & _). simpl in Hlook.
  unfold exists_, isDirectory, entries_has.
  rewrite recordFiles_entries, Hlook. split.
  - apply bool_decide_eq_true. eauto.
  - by apply bool_decide_eq_false.
Qed.

(** X8: staging absorbs what was staged before under the same key.  For
    two paths of one key (in particular for one path), a [deleteFile] or
    [upsertData] after an earlier one leaves exactly the fields it would
    have left without the earlier one: the earlier content, marker and
    cached path are gone. *)
Theorem staging_absorbs_earlier_stage (p q a b : string) (this : t) :
  buildPathHashDigest p = buildPathHashDigest q ->
  upsertData q b (upsertData p a this) = upsertData q b this /\
  upsertData q b (deleteFile p this) = upsertData q b this /\
  deleteFile q (upsertData p a this) = deleteFile q this /\
  deleteFile q (deleteFile p this) = deleteFile q this.
Proof.
  intros Hpq. unfold upsertData, deleteFile, changes_set, entries_set. simpl.
  rewrite Hpq, !JSMap_set_set, !insert_insert_eq. done.
Qed.
End ReadGlobStage.


Lemma getFilePaths_records_files_witness :
  let this := @UnifiedFileSystem.entries_set "/site/a"
                {| kind := directory; path := "/site/a" |}
                UnifiedFileSystem.new in
  let this' := @Run.recordFiles identityDigest ["/site/a"%string] this in
  @UnifiedFileSystem.isDirectory identityDigest "/site/a" this = true /\
  yields (@UnifiedFileSystem.getFilePaths identityDigest "/site"
            ["**/*"%string] [] this)
    [GlobExchange {| includePatterns := ["**/*"%string]; excludePatterns := [];
                     absolute := true; currentWorkingDirectory := "/site" |}
       (inr ["/site/a"%string])]
    (Returned ["/site/a"%string], this') /\
  @UnifiedFileSystem.exists_ identityDigest "/site/a" this' = true /\
  @UnifiedFileSystem.isDirectory identityDigest "/site/a" this' = false.
Proof.
  intros this this'. split; [reflexivity |].
  assert (yields (@UnifiedFileSystem.getFilePaths identityDigest "/site"
                    ["**/*"%string] [] this)
            [GlobExchange {| includePatterns := ["**/*"%string];
                             excludePatterns := []; absolute := true;
                             currentWorkingDirectory := "/site" |}
               (inr ["/site/a"%string])]
            (Returned ["/site/a"%string], this')) as Hy.
  { apply (yields_Vis (Glob _) _ (inr ["/site/a"%string])). constructor. }
  split; [exact Hy |].
  destruct (@getFilePaths_records_files identityDigest _ _ _ _ _ _ _ Hy)
    as (_ & _ & _ & Hfiles).
  apply Hfiles. by apply list_elem_of_singleton.
Defined.

Lemma staging_absorbs_earlier_stage_witness :
  @UnifiedFileSystem.deleteFile identityDigest "/a"
    (@UnifiedFileSystem.upsertData identityDigest "/a" "x" UnifiedFileSystem.new)
  = @UnifiedFileSystem.deleteFile identityDigest "/a" UnifiedFileSystem.new.
Proof.
  destruct (@staging_absorbs_earlier_stage identityDigest "/a" "/a" "x" "y"
              UnifiedFileSystem.new eq_refl) as (_ & _ & Hdelete & _).
  exact Hdelete.
Defined.




Lemma upsertUnifiedEntry_asks_per_kind_witness :
  let entry := {| kind := file; path := "/a" |} in
  UnifiedFileSystem.__entries UnifiedFileSystem.new !! identityDigest "/a" = None /\
  yields (@UnifiedFileSystem.upsertUnifiedEntry identityDigest "/a"
            UnifiedFileSystem.new)
    [GetUnifiedEntryExchange "/a" (inr entry);
     GetUnifiedEntryExchange "/a" (inr entry)]
    (Returned (Some entry),
     UnifiedFileSystem.entries_set "/a" entry UnifiedFileSystem.new).
Proof.
  intros entry. split; [reflexivity |].
  apply (@upsertUnifiedEntry_asks_per_kind identityDigest "/a"
           UnifiedFileSystem.new); [reflexivity |].
  right. right. exists entry, (inr entry). done.
Defined.

(** ** More on whole runs *)

Lemma JSMap_elem_get {V : Type} (m : JSMap.t V) (k : string) (v : V) :
  NoDup (JSMap.keys m) -> (k, v) ∈ m -> JSMap.get m k = Some v.
Proof.
  unfold JSMap.keys. induction m as [| [k' v'] m IH]; simpl.
  - by intros _ ?%elem_of_nil.
  - intros [Hk Hnd]%NoDup_cons [[= -> ->] | Hin]%elem_of_cons.
    + by rewrite decide_True.
    + rewrite decide_False; [by apply IH |].
      intros ->. apply Hk. apply list_elem_of_fmap. by exists (k, v).
Qed.

Section MoreRuns.
Import UnifiedFileSystem Run.
Context `{BuildPathHashDigest}.

Lemma fields_eq (this this' : t) :
  __directoryFiles this = __directoryFiles this' ->
  __entries this = __entries this' ->
  __changes this = __changes this' ->
  this = this'.
Proof. destruct this, this'. simpl. by intros -> -> ->. Qed.

Lemma effect_changes (operation : Operation) (this this' : t)
    (tr : list Exchange) :
  effect this operation tr this' ->
  ~ staging operation -> __changes this' = __changes this.
Proof.
  intros Heff Hop. destruct Heff as [op tr _ | op p x tr _ _
    | d es | d inc exc ga ps | p | p data]; simpl in *; try done.
  - apply recordChildren_changes.
  - apply recordFiles_changes.
Qed.

Lemma effect_changes_keys (operation : Operation) (this this' : t)
    (tr : list Exchange) (k : string) :
  effect this operation tr this' ->
  k ∈ JSMap.keys (__changes this) -> k ∈ JSMap.keys (__changes this').
Proof.
  intros Heff Hk. destruct Heff as [op tr _ | op p x tr _ _
    | d es | d inc exc ga ps | p | p data]; simpl; try done.
  - by rewrite recordChildren_changes.
  - by rewrite recordFiles_changes.
  - apply JSMap_keys_set. by right.
  - apply JSMap_keys_set. by right.
Qed.

Lemma effect_changes_get (operation : Operation) (this this' : t)
    (tr : list Exchange) (k : string) :
  effect this operation tr this' ->
  ~ stages k operation ->
  JSMap.get (__changes this') k = JSMap.get (__changes this) k.
Proof.
  intros Heff Hop. destruct Heff as [op tr _ | op p x tr _ _
    | d es | d inc exc ga ps | p | p data]; simpl in *; try done.
  - by rewrite recordChildren_changes.
  - by rewrite recordFiles_changes.
  - by apply JSMap_get_set_ne.
  - by apply JSMap_get_set_ne.
Qed.

(** X9: only [deleteFile] and [upsertData] write to the ledger.  A run
    made of the other calls (upserts, listings, reads, globs), however the
    backing store answers, leaves the ledger exactly as it was; and no call
    at all ever takes a key out of the ledger. *)
Theorem only_staging_calls_touch_the_ledger (this this' : t)
    (history : list (Operation * list Exchange)) :
  steps this history this' ->
  (Forall (fun step => ~ staging step.1) history ->
   __changes this' = __changes this) /\
  (forall k, k ∈ JSMap.keys (__changes this) ->
             k ∈ JSMap.keys (__changes this')).
Proof.
  induction 1 as [| this this' this'' op tr history Hy _ [IHeq IHkeys]];
    [done |].
  apply perform_effect in Hy. split.
  - intros [Hop Hrest]%Forall_cons. simpl in Hop.
    rewrite IHeq by done. by eapply effect_changes.
  - intros k Hk. apply IHkeys. by eapply effect_changes_keys.
Qed.

Lemma readFile_by_ledger (p : string) (this this' : t) (o : outcome string) :
  JSMap.get (__changes this') (buildPathHashDigest p)
    = JSMap.get (__changes this) (buildPathHashDigest p) ->
  readFile p this = Ret (o, this) -> readFile p this' = Ret (o, this').
Proof.
  unfold readFile, mbind, M_bind, bind, gets. simpl. unfold continue. simpl.
  intros ->.
  destruct (JSMap.get (__changes this) (buildPathHashDigest p))
    as [[data |] |]; [| | done]; by intros [= <-].
Qed.

(** X10: what is staged for a path stays the answer of [readFile] until
    that key is staged again.  If [readFile(p)] is answered from the ledger
    (with staged content, or with the "already deleted" error), then after
    any run that does not call [deleteFile] or [upsertData] on a path of
    the same key it is answered in the same way, still without a call to
    the backing store. *)
Theorem staged_answer_persists (p : string) (this this' : t)
    (history : list (Operation * list Exchange)) (o : outcome string) :
  steps this history this' ->
  Forall (fun step => ~ stages (buildPathHashDigest p) step.1) history ->
  readFile p this = Ret (o, this) ->
  readFile p this' = Ret (o, this').
Proof.
  intros Hsteps Hhistory. apply readFile_by_ledger.
  induction Hsteps as [| this this' this'' op tr history Hy _ IH]; [done |].
  apply Forall_cons in Hhistory as [Hop Hrest]. simpl in Hop.
  rewrite IH by done. eapply effect_changes_get; [by apply perform_effect | done].
Qed.

(** X11: the entry cache never evicts.  A path that exists keeps existing
    through every later call, whatever the backing store answers, also
    after [deleteFile] on it. *)
Theorem existing_path_keeps_existing (p : string) (this this' : t)
    (history : list (Operation * list Exchange)) :
  steps this history this' ->
  exists_ p this = true -> exists_ p this' = true.
Proof.
  intros Hsteps Hexists%entries_has_true. apply entries_has_true.
  by eapply steps_entries_is_Some.
Qed.

Lemma commands_length (this : t) (l : list (string * option string)) :
  (forall kv, kv ∈ l -> backed kv.1 this) ->
  length (l ≫= commandsFor this) = length l.
Proof.
  induction l as [| [k v] l IH]; [done |]. intros Hl.
  rewrite bind_cons, length_app, IH by (intros; apply Hl; by right).
  destruct (Hl (k, v)) as (e & Hlook & _); [by left |]. simpl in Hlook.
  unfold commandsFor. simpl. rewrite Hlook. by destruct v.
Qed.

Lemma command_from_ledger (this : t) (c : ExternalFileCommand) :
  coherent this ->
  c ∈ buildExternalFileCommands this ->
  JSMap.get (__changes this) (buildPathHashDigest (externalPath c))
  = Some (match c with
          | ExternalDeleteFile _ => None
          | ExternalUpsertFile _ data => Some data
          end).
Proof.
  intros (Hnd & Hledger & _). rewrite buildExternalFileCommands_bind.
  intros ([k v] & Hc & Hkv)%list_elem_of_bind.
  assert (backed k this) as Hk.
  { apply Hledger. apply list_elem_of_fmap. by exists (k, v). }
  rewrite (commandsFor_backed this k v c Hk Hc).
  rewrite (JSMap_elem_get _ k v Hnd Hkv). f_equal.
  destruct Hk as (e & Hlook & _). unfold commandsFor in Hc. simpl in Hc.
  rewrite Hlook in Hc. destruct v; apply list_elem_of_singleton in Hc as ->; done.
Qed.

(** X12: in an instance that started fresh the external commands mirror
    the ledger.  There are exactly as many commands as ledger entries (no
    staged change is dropped for want of a cache entry), and each command
    agrees with a read of its own path: [readFile] of the path of an
    [upsertFile] command returns the data of that command, and [readFile]
    of the path of a [deleteFile] command throws "already deleted". *)
Theorem commands_mirror_the_ledger (this : t)
    (history : list (Operation * list Exchange)) :
  steps new history this ->
  length (buildExternalFileCommands this) = length (__changes this) /\
  (forall p data,
     ExternalUpsertFile p data ∈ buildExternalFileCommands this ->
     readFile p this = Ret (Returned data, this)) /\
  (forall p,
     ExternalDeleteFile p ∈ buildExternalFileCommands this ->
     readFile p this
     = Ret (Thrown (Error "This file has already been deleted"), this)).
Proof.
  intros Hsteps.
  assert (coherent this) as Hco
    by (eapply steps_coherent; [done | apply coherent_new]).
  split; [| split].
  - rewrite buildExternalFileCommands_bind. apply commands_length.
    intros [k v] Hkv. apply Hco. apply list_elem_of_fmap. by exists (k, v).
  - intros p data Hc. apply (command_from_ledger this _ Hco) in Hc.
    simpl in Hc.
    unfold readFile, mbind, M_bind, bind, gets. simpl. unfold continue. simpl.
    by rewrite Hc.
  - intros p Hc. apply (command_from_ledger this _ Hco) in Hc. simpl in Hc.
    unfold readFile, mbind, M_bind, bind, gets. simpl. unfold continue. simpl.
    by rewrite Hc.
Qed.

Lemma effect_directoryFiles_NoDup (operation : Operation) (this this' : t)
    (tr : list Exchange) :
  effect this operation tr this' ->
  NoDup (__directoryFiles this) -> NoDup (__directoryFiles this').
Proof.
  intros Heff Hnd. destruct Heff as [op tr _ | op p x tr _ _
    | d es | d inc exc ga ps | p | p data]; simpl; try done.
  - induction es as [| e es IH] using rev_ind; [done |].
    rewrite recordChildren_snoc. simpl.
    unfold LeftRightHashSetManager.upsert. case_decide as Hin; [done |].
    apply NoDup_app. split; [done |]. split; [| apply NoDup_singleton].
    by intros lr ? ->%list_elem_of_singleton.
  - by rewrite recordFiles_directoryFiles.
Qed.

Lemma childPaths_NoDup (hd : string) (this : t) :
  coherent this -> NoDup (__directoryFiles this) ->
  NoDup (childPaths hd this).
Proof.
  intros (_ & _ & Hindex) Hnd.
  unfold childPaths, LeftRightHashSetManager.getRightHashesByLeftHash.
  set (pairs := filter (fun lr : string * string => lr.1 = hd)
                  (__directoryFiles this)).
  assert (NoDup pairs.*2) as Hrights.
  { apply NoDup_fmap_2_strong; [| by apply NoDup_filter].
    intros [l r] [l' r'] [Hl _]%list_elem_of_filter [Hl' _]%list_elem_of_filter.
    simpl in *. congruence. }
  assert (forall r, r ∈ pairs.*2 -> backed r this) as Hbacked.
  { intros r ([l r'] & -> & [_ Hin]%list_elem_of_filter)%list_elem_of_fmap.
    apply (Hindex _ Hin). }
  induction (pairs.*2) as [| r rs IH]; [constructor |].
  apply NoDup_cons in Hrights as [Hr Hrs]. simpl.
  assert (NoDup (omap (fun r => path <$> __entries this !! r) rs)) as Htail.
  { apply IH; [done |]. intros; apply Hbacked; by right. }
  destruct (Hbacked r) as (e & Hlook & Hk); [by left |].
  rewrite Hlook. simpl. apply NoDup_cons. split; [| done].
  intros (r' & Hr' & Hx)%list_elem_of_omap. apply Hr.
  destruct (Hbacked r') as (e' & Hlook' & Hk'); [by right |].
  rewrite Hlook' in Hx. simpl in Hx. injection Hx as Hx. congruence.
Qed.

(** X13: in an instance that started fresh [readDirectory] reports no path
    twice, however often the backing store has listed a child, also when a
    listing names a child more than once. *)
Theorem readDirectory_reports_no_path_twice (d : string) (this this' : t)
    (history : list (Operation * list Exchange)) (tr : list Exchange)
    (paths : list string) :
  steps new history this ->
  yields (readDirectory d this) tr (Returned paths, this') ->
  NoDup paths.
Proof.
  intros Hsteps Hy.
  assert (steps new (history ++ [(DoReadDirectory d, tr)]) this') as Hsteps'.
  { eapply steps_app; [done |]. econstructor; [| constructor].
    apply yields_fieldsAfter. eauto. }
  apply yields_readDirectory in Hy as (x & -> & Hr).
  destruct x as [e | es]; [done |]. injection Hr as -> Hthis'.
  rewrite <- Hthis'. apply childPaths_NoDup.
  - eapply steps_coherent; [done | apply coherent_new].
  - clear Hthis' Hsteps. remember new as this0 eqn:Hnew.
    assert (NoDup (__directoryFiles this0)) as Hnd by (subst; constructor).
    clear Hnew. induction Hsteps' as [| ? ? ? op tr' ? Hstep _ IH]; [done |].
    apply IH. eapply effect_directoryFiles_NoDup; [by apply perform_effect | done].
Qed.

Lemma cacheAll_lookup (es : list UnifiedEntry) (m : gmap string UnifiedEntry)
    (k : string) :
  cacheAll es m !! k =
  match last (filter (fun e => buildPathHashDigest (path e) = k) es) with
  | Some e => Some e
  | None => m !! k
  end.
Proof.
  induction es as [| e es IH] using rev_ind; [done |].
  rewrite cacheAll_snoc, filter_app.
  destruct (decide (buildPathHashDigest (path e) = k)) as [<- | Hne].
  - rewrite (filter_cons_True _ e) by done. rewrite filter_nil, last_snoc.
    apply lookup_insert_eq.
  - rewrite (filter_cons_False _ e) by done. rewrite filter_nil, app_nil_r.
    by rewrite lookup_insert_ne.
Qed.

Lemma cacheAll_idempotent (es : list UnifiedEntry)
    (m : gmap string UnifiedEntry) :
  cacheAll es (cacheAll es m) = cacheAll es m.
Proof.
  apply map_eq. intros k. rewrite (cacheAll_lookup es (cacheAll es m)).
  rewrite (cacheAll_lookup es m).
  by destruct (last (filter _ es)).
Qed.

Lemma recordChildren_listed (hd : string) (es : list UnifiedEntry) (this : t) :
  (forall e, e ∈ es ->
     (hd, buildPathHashDigest (path e)) ∈ __directoryFiles this) ->
  __directoryFiles (recordChildren hd es this) = __directoryFiles this.
Proof.
  induction es as [| e es IH] using rev_ind; [done |]. intros Hes.
  rewrite recordChildren_snoc. simpl.
  rewrite IH by (intros; apply Hes; apply elem_of_app; by left).
  unfold LeftRightHashSetManager.upsert. rewrite decide_True; [done |].
  apply Hes. apply elem_of_app. right. by apply list_elem_of_singleton.
Qed.

Lemma recordChildren_idempotent (hd : string) (es : list UnifiedEntry)
    (this : t) :
  recordChildren hd es (recordChildren hd es this) = recordChildren hd es this.
Proof.
  apply fields_eq.
  - apply recordChildren_listed. intros e He.
    apply recordChildren_directoryFiles. right. eauto.
  - rewrite !recordChildren_entries. apply cacheAll_idempotent.
  - by rewrite !recordChildren_changes.
Qed.

(** X14: listing is idempotent.  When [readDirectory(d)] has returned and
    the backing store gives the same answer to the next [readDirectory(d)],
    that call returns the same paths in the same order and changes no
    field. *)
Theorem listing_is_idempotent (d : string) (es : list UnifiedEntry)
    (this this1 : t) (paths : list string)
    (r : outcome (list string) * t) :
  yields (readDirectory d this) [ReadDirectoryExchange d (inr es)]
    (Returned paths, this1) ->
  yields (readDirectory d this1) [ReadDirectoryExchange d (inr es)] r <->
  r = (Returned paths, this1).
Proof.
  intros (x & [= <-] & [= -> ->])%yields_readDirectory.
  rewrite yields_readDirectory. split.
  - intros (x & [= <-] & ->). simpl. by rewrite !recordChildren_idempotent.
  - intros ->. exists (inr es). split; [done |]. simpl.
    by rewrite !recordChildren_idempotent.
Qed.
End MoreRuns.

(** ** More on the interpreter *)

Lemma keeps_ret {F X A : Type} (f : F -> X) (a : A) : keeps f (ret a : M F A).
Proof. by intros s s' tr o [_ [= _ ->]]%yields_Ret_inv. Qed.

Lemma keeps_gets {F X A : Type} (f : F -> X) (g : F -> A) : keeps f (gets g).
Proof. by intros s s' tr o [_ [= _ ->]]%yields_Ret_inv. Qed.

Lemma keeps_bind {F X A B : Type} (f : F -> X) (m : M F A) (k : A -> M F B) :
  keeps f m -> (forall a, keeps f (k a)) -> keeps f (m ≫= k).
Proof.
  intros Hm Hk s s' tr o (tr1 & o1 & s1 & tr2 & Hy & Hres & ->)%yields_bind.
  apply Hm in Hy. rewrite <- Hy. destruct o1 as [a | e |]; simpl in Hres.
  - by eapply Hk.
  - by destruct Hres as [_ [= _ ->]].
  - by destruct Hres as [_ [= _ ->]].
Qed.

Lemma keeps_bind_ret {F X A B : Type} (f : F -> X) (a : A) (k : A -> M F B) :
  keeps f (k a) -> keeps f ((ret a : M F A) ≫= k).
Proof.
  intros Hk s s' tr o (tr1 & o1 & s1 & tr2 & Hy & Hres & ->)%yields_bind.
  apply yields_Ret_inv in Hy as [-> [= -> ->]]. simpl in Hres. by eapply Hk.
Qed.

Lemma keeps_forEach {F X A : Type} (f : F -> X) (xs : list A)
    (body : A -> M F unit) :
  (forall x, x ∈ xs -> keeps f (body x)) -> keeps f (forEach xs body).
Proof.
  induction xs as [| x xs IH]; intros Hbody; [apply keeps_ret |].
  simpl. apply keeps_bind; [apply Hbody; by left |].
  intros _. apply IH. intros; apply Hbody; by right.
Qed.

Lemma foldl_push_fmap {A B : Type} (g : A -> B) (xs : list A) (acc : list B) :
  foldl (fun commands x => commands ++ [g x]) acc xs = acc ++ (g <$> xs).
Proof.
  revert acc. induction xs as [| x xs IH]; intros acc; simpl.
  - by rewrite app_nil_r.
  - by rewrite IH, <- app_assoc.
Qed.

Section MoreInterpreter.
Import Repomod.
Context `{BuildPathHashDigest} {Dependencies : Type}.
Implicit Types (api : API UnifiedFileSystem.t Dependencies)
  (repomod : Repomod UnifiedFileSystem.t Dependencies).

Lemma keeps_changes_perform {A : Type} (m : M UnifiedFileSystem.t A)
    (operation : Run.Operation) :
  ~ staging operation ->
  (forall this, Run.perform operation this = Run.fieldsAfter (m this)) ->
  keeps UnifiedFileSystem.__changes m.
Proof.
  intros Hop Hm s s' tr o Hy. eapply effect_changes; [| done].
  apply perform_effect. rewrite Hm. apply yields_fieldsAfter. eauto.
Qed.

(** X15: a file staged for deletion cannot be processed any more.  Behind
    the unified facade, [deleteFile p] followed by [upsertFile p] (as one
    file hook may return them) aborts the run with "This file has already
    been deleted": the deletion stays staged, and the data hook is not run,
    whatever the repomod. *)
Theorem upsertFile_after_deleteFile_aborts (fuel : nat) api repomod
    (p : string) (options : gmap string string) (this : UnifiedFileSystem.t) :
  facadeFileSystem api = unifiedFacade ->
  forEach [DeleteFile p; UpsertFile p options]
    (fun command : FileCommand => handleCommand (S fuel) api repomod command)
    this
  = Ret (Thrown (Error "This file has already been deleted"),
         UnifiedFileSystem.deleteFile p this).
Proof.
  intros Hfacade. simpl. rewrite Hfacade. simpl.
  unfold mbind, M_bind, bind, modify. simpl. unfold continue at 1. simpl.
  unfold UnifiedFileSystem.readFile, mbind, M_bind, bind, gets. simpl.
  unfold continue. simpl. by rewrite JSMap_get_set_eq.
Qed.

(** X16: a command of the wrong kind is dropped.  Behind the unified
    facade, for a path that is not cached: [handleFile] on a path that the
    backing store describes as a directory, and [handleDirectory] (without
    include patterns) on one it describes as a file, end after that one
    question with nothing cached, nothing staged and no hook run, whatever
    the repomod. *)
Theorem mismatched_command_is_dropped (fuel : nat) api repomod
    (p : string) (options : gmap string string) (u : UnifiedEntry)
    (this : UnifiedFileSystem.t) :
  facadeFileSystem api = unifiedFacade ->
  UnifiedFileSystem.__entries this !! buildPathHashDigest p = None ->
  (kind u = directory ->
   yields (handleCommand (S fuel) api repomod (HandleFile p options) this)
     [GetUnifiedEntryExchange p (inr u)] (Returned tt, this)) /\
  (kind u = file -> includePatterns repomod = None ->
   yields (handleCommand (S fuel) api repomod (HandleDirectory p options) this)
     [GetUnifiedEntryExchange p (inr u)] (Returned tt, this)).
Proof.
  intros Hfacade Hnone. split.
  - intros Hkind. simpl. rewrite Hfacade. simpl. apply yields_bind.
    exists [GetUnifiedEntryExchange p (inr u)], (Returned None), this, [].
    split; [| split; [constructor | done]].
    apply yields_upsertUnifiedFile. rewrite Hnone. exists (inr u).
    by rewrite Hkind.
  - intros Hkind Hpatterns. simpl. rewrite Hfacade, Hpatterns. simpl.
    apply yields_bind.
    exists [], (Returned tt), this, [GetUnifiedEntryExchange p (inr u)].
    split; [constructor |]. split; [| done]. simpl. apply yields_bind.
    exists [GetUnifiedEntryExchange p (inr u)], (Returned None), this, [].
    split; [| split; [constructor | done]].
    apply yields_upsertUnifiedDirectory. rewrite Hnone. exists (inr u).
    by rewrite Hkind.
Qed.

(** X17: a root that cannot be resolved.  Behind the unified facade, for a
    root path that is not cached, [executeRepomod] rethrows the rejection
    of the backing store's description (it does not return an empty list
    then); and when the store describes the root as a file and, asked
    again, as a directory, the result is the empty list, whatever the
    ledger holds.  Neither case runs a command or needs any recursion
    budget. *)
Theorem unresolved_root_ends_the_run (fuel : nat) api repomod
    (path : string) (options : gmap string string)
    (e : exn) (u u' : UnifiedEntry) (this : UnifiedFileSystem.t) :
  facadeFileSystem api = unifiedFacade ->
  UnifiedFileSystem.__entries this !! buildPathHashDigest path = None ->
  yields (executeRepomod fuel api repomod path options this)
    [GetUnifiedEntryExchange path (inl e)] (Thrown e, this) /\
  (kind u = file -> kind u' = directory ->
   yields (executeRepomod fuel api repomod path options this)
     [GetUnifiedEntryExchange path (inr u);
      GetUnifiedEntryExchange path (inr u')]
     (Returned [], this)).
Proof.
  intros Hfacade Hnone. unfold executeRepomod. rewrite Hfacade. simpl. split.
  - apply yields_bind.
    exists [GetUnifiedEntryExchange path (inl e)], (Thrown e), this, [].
    split; [| done]. apply yields_upsertUnifiedEntry_uncached; [done |].
    left. eauto.
  - intros Hkind Hkind'. apply yields_bind.
    exists [GetUnifiedEntryExchange path (inr u);
            GetUnifiedEntryExchange path (inr u')], (Returned None), this, [].
    split; [| split; [constructor | done]].
    apply yields_upsertUnifiedEntry_uncached; [done |].
    right. right. exists u, (inr u'). by rewrite Hkind'.
Qed.
End MoreInterpreter.

Section DefaultHooks.
Import Repomod.
Context {F Dependencies : Type}.

Lemma foldl_commandForChild (isDir : string -> F -> bool)
    (options : gmap string string) (this : F) (paths : list string)
    (acc : list DirectoryCommand) :
  foldl (fun commands path =>
           let directory := isDir path this in
           if directory then commands ++ [HandleDirectory path options]
           else commands ++ [HandleFile path options])
        acc paths
  = acc ++ (commandForChild isDir options this <$> paths).
Proof.
  revert acc. induction paths as [| p paths IH]; intros acc; simpl.
  - by rewrite app_nil_r.
  - rewrite IH. unfold commandForChild at 2.
    destruct (isDir p this); by rewrite <- app_assoc.
Qed.

(** X18: the default directory hook turns a listing into commands one to
    one.  Through the API that [buildApi] builds over a facade, it lists
    the directory with the facade's [readDirectory] and returns one command
    per reported path, in the order reported and with the options it was
    given: [handleDirectory] for a path that the facade takes for a
    directory once the listing is done, [handleFile] for any other.  When
    the listing throws, so does the hook. *)
Theorem defaultHandleDirectory_one_command_per_child
    (platformPath : PathAPI) (facade : FacadeFileSystem F)
    (getDependencies : unit -> Dependencies)
    (d : string) (options : gmap string string) (this : F)
    (tr : list Exchange) (r : outcome (list DirectoryCommand) * F) :
  yields (defaultHandleDirectory
            (directoryAPI (buildApi platformPath facade getDependencies))
            d options this) tr r <->
  exists o this',
    yields (readDirectory facade d this) tr (o, this') /\
    r = (match o with
         | Returned paths =>
             Returned (commandForChild (isDirectory facade) options this'
                         <$> paths)
         | Thrown e => Thrown e
         | OutOfFuel => OutOfFuel
         end, this').
Proof.
  unfold defaultHandleDirectory. simpl. rewrite yields_bind. split.
  - intros (tr1 & o & s1 & tr2 & Hy & Hres & ->). exists o, s1.
    destruct o as [paths | e |]; simpl in Hres.
    + apply yields_Ret_inv in Hres as [-> ->]. rewrite app_nil_r.
      split; [done |]. by rewrite foldl_commandForChild.
    + destruct Hres as [-> ->]. by rewrite app_nil_r.
    + destruct Hres as [-> ->]. by rewrite app_nil_r.
  - intros (o & this' & Hy & ->). exists tr, o, this', [].
    split; [done |]. split; [| by rewrite app_nil_r].
    destruct o as [paths | e |]; simpl; [| done | done].
    unfold gets. rewrite foldl_commandForChild. constructor.
Qed.
End DefaultHooks.

Section Hookless.
Import Repomod.
Context `{BuildPathHashDigest} {Dependencies : Type}.
Implicit Types (repomod : Repomod UnifiedFileSystem.t Dependencies).

Lemma keeps_changes_upsertUnifiedEntry (p : string) :
  keeps UnifiedFileSystem.__changes (UnifiedFileSystem.upsertUnifiedEntry p).
Proof.
  apply (keeps_changes_perform _ (Run.DoUpsertUnifiedEntry p)); [by intros [] | done].
Qed.

Lemma keeps_changes_upsertUnifiedDirectory (p : string) :
  keeps UnifiedFileSystem.__changes (UnifiedFileSystem.upsertUnifiedDirectory p).
Proof.
  apply (keeps_changes_perform _ (Run.DoUpsertUnifiedDirectory p)); [by intros [] | done].
Qed.

Lemma keeps_changes_upsertUnifiedFile (p : string) :
  keeps UnifiedFileSystem.__changes (UnifiedFileSystem.upsertUnifiedFile p).
Proof.
  apply (keeps_changes_perform _ (Run.DoUpsertUnifiedFile p)); [by intros [] | done].
Qed.

Lemma keeps_changes_readDirectory (d : string) :
  keeps UnifiedFileSystem.__changes (UnifiedFileSystem.readDirectory d).
Proof.
  apply (keeps_changes_perform _ (Run.DoReadDirectory d)); [by intros [] | done].
Qed.

Lemma keeps_changes_readFile (p : string) :
  keeps UnifiedFileSystem.__changes (UnifiedFileSystem.readFile p).
Proof.
  apply (keeps_changes_perform _ (Run.DoReadFile p)); [by intros [] | done].
Qed.

Lemma keeps_changes_getFilePaths (d : string) (inc exc : list string) :
  keeps UnifiedFileSystem.__changes (UnifiedFileSystem.getFilePaths d inc exc).
Proof.
  apply (keeps_changes_perform _ (Run.DoGetFilePaths d inc exc)); [by intros [] | done].
Qed.

Lemma hookless_handleCommand_keeps_changes (fuel : nat)
    (platformPath : PathAPI) (getDependencies : unit -> Dependencies)
    repomod (command : Command) :
  handleDirectory repomod = None ->
  handleFile repomod = None ->
  handleData repomod = None ->
  stagesNothing command ->
  keeps UnifiedFileSystem.__changes
    (handleCommand fuel (buildApi platformPath unifiedFacade getDependencies)
       repomod command).
Proof.
  intros Hdirectory Hfile Hdata. revert command.
  induction fuel as [| fuel IH]; intros command Hcommand.
  { by intros s s' tr o [_ [= _ ->]]%yields_Ret_inv. }
  destruct command as [[path options | path options]
    | [path options | path | ? ? ? | ? ? ?] | [data path |]];
    try done; try apply keeps_ret; simpl.
  - apply keeps_bind.
    { destruct (includePatterns repomod) as [patterns |]; [| apply keeps_ret].
      apply keeps_bind; [apply keeps_changes_getFilePaths |].
      intros paths. apply keeps_forEach. intros p _. by apply IH. }
    intros _. apply keeps_bind; [apply keeps_changes_upsertUnifiedDirectory |].
    intros [entry |]; [| apply keeps_ret].
    rewrite Hdirectory. simpl. apply keeps_bind.
    { unfold defaultHandleDirectory. simpl.
      apply keeps_bind; [apply keeps_changes_readDirectory |].
      intros paths. apply keeps_gets. }
    intros commands. apply keeps_forEach. intros c _. by apply IH.
  - apply keeps_bind; [apply keeps_changes_upsertUnifiedFile |].
    intros [entry |]; [| apply keeps_ret].
    rewrite Hfile. simpl. apply keeps_bind_ret. simpl.
    apply keeps_bind; [by apply IH |]. intros _. apply keeps_ret.
  - apply keeps_bind; [apply keeps_changes_readFile |].
    intros data. rewrite Hdata. simpl. apply keeps_bind_ret. by apply IH.
Qed.

(** X19: a repomod without hooks stages nothing.  With the three default
    hooks (and any include and exclude patterns), a run of [executeRepomod]
    behind the unified facade leaves the ledger as it found it, however
    deep it walks, whatever the backing store answers and however it ends;
    so on an instance with an empty ledger, a run that returns returns the
    empty command list. *)
Theorem hookless_run_stages_nothing (fuel : nat)
    (platformPath : PathAPI) (getDependencies : unit -> Dependencies)
    repomod (path : string) (options : gmap string string)
    (this this' : UnifiedFileSystem.t) (tr : list Exchange)
    (o : outcome (list ExternalFileCommand)) :
  handleDirectory repomod = None ->
  handleFile repomod = None ->
  handleData repomod = None ->
  yields (executeRepomod fuel
            (buildApi platformPath unifiedFacade getDependencies)
            repomod path options this) tr (o, this') ->
  UnifiedFileSystem.__changes this' = UnifiedFileSystem.__changes this /\
  (UnifiedFileSystem.__changes this = [] ->
   forall commands, o = Returned commands -> commands = []).
Proof.
  intros Hdirectory Hfile Hdata Hy.
  unfold executeRepomod in Hy. simpl in Hy.
  apply yields_bind in Hy as (tr1 & o1 & s1 & tr2 & Hroot & Hres & ->).
  apply keeps_changes_upsertUnifiedEntry in Hroot as Hs1.
  destruct o1 as [[entry |] | e |]; simpl in Hres.
  - apply yields_bind in Hres as (tr3 & o3 & s3 & tr4 & Hrun & Hres & ->).
    assert (UnifiedFileSystem.__changes s3 = UnifiedFileSystem.__changes s1)
      as Hs3.
    { eapply (hookless_handleCommand_keeps_changes fuel platformPath
                getDependencies repomod); [done | done | done | | exact Hrun].
      by case_bool_decide. }
    destruct o3 as [[] | e |]; simpl in Hres.
    + apply yields_Ret_inv in Hres as [-> [= -> ->]].
      split; [congruence |]. intros Hempty commands [= <-].
      unfold UnifiedFileSystem.buildExternalFileCommands.
      rewrite Hs3, Hs1, Hempty. done.
    + destruct Hres as [-> [= -> ->]]. split; [congruence | done].
    + destruct Hres as [-> [= -> ->]]. split; [congruence | done].
  - apply yields_Ret_inv in Hres as [-> [= -> ->]].
    split; [done |]. by intros _ commands [= <-].
  - destruct Hres as [-> [= -> ->]]. split; [done | done].
  - destruct Hres as [-> [= -> ->]]. split; [done | done].
Qed.
End Hookless.

(** ** The further properties on the worked example *)

Lemma only_staging_calls_touch_the_ledger_witness :
  let this := @UnifiedFileSystem.upsertData identityDigest "/a" "x"
                UnifiedFileSystem.new in
  let listing := [{| kind := file; path := "/a" |}] in
  let history := [(Run.DoReadDirectory "/",
                   [ReadDirectoryExchange "/" (inr listing)])] in
  let this' := @Run.recordChildren identityDigest "/" listing this in
  @Run.steps identityDigest this history this' /\
  UnifiedFileSystem.__changes this' = UnifiedFileSystem.__changes this.
Proof.
  intros this listing history this'.
  assert (@Run.steps identityDigest this history this') as Hsteps.
  { econstructor; [| constructor].
    apply (yields_Vis (ReadDirectory "/") _ (inr listing)). constructor. }
  split; [exact Hsteps |].
  apply (proj1 (@only_staging_calls_touch_the_ledger identityDigest
                  this this' history Hsteps)).
  repeat constructor. by intros [].
Defined.

Lemma staged_answer_persists_witness :
  let this := @UnifiedFileSystem.upsertData identityDigest "/a" "x"
                UnifiedFileSystem.new in
  let listing := [{| kind := directory; path := "/a" |}] in
  let history := [(Run.DoReadDirectory "/",
                   [ReadDirectoryExchange "/" (inr listing)]);
                  (Run.DoDeleteFile "/b", [])] in
  let this' := @UnifiedFileSystem.deleteFile identityDigest "/b"
                 (@Run.recordChildren identityDigest "/" listing this) in
  @Run.steps identityDigest this history this' /\
  @UnifiedFileSystem.readFile identityDigest "/a" this'
  = Ret (Returned "x"%string, this').
Proof.
  intros this listing history this'.
  assert (@Run.steps identityDigest this history this') as Hsteps.
  { econstructor; [| econstructor; [| constructor]].
    - apply (yields_Vis (ReadDirectory "/") _ (inr listing)). constructor.
    - constructor. }
  split; [exact Hsteps |].
  apply (@staged_answer_persists identityDigest "/a" this this' history
           (Returned "x"%string) Hsteps); [| reflexivity].
  repeat constructor; simpl; [by intros [] | discriminate].
Defined.

Lemma existing_path_keeps_existing_witness :
  let this := @UnifiedFileSystem.upsertData identityDigest "/a" "x"
                UnifiedFileSystem.new in
  let this' := @UnifiedFileSystem.deleteFile identityDigest "/a" this in
  @Run.steps identityDigest this [(Run.DoDeleteFile "/a", [])] this' /\
  @UnifiedFileSystem.exists_ identityDigest "/a" this' = true.
Proof.
  intros this this'.
  assert (@Run.steps identityDigest this [(Run.DoDeleteFile "/a", [])] this')
    as Hsteps.
  { econstructor; [| constructor]. constructor. }
  split; [exact Hsteps |].
  apply (@existing_path_keeps_existing identityDigest "/a" this this' _ Hsteps).
  reflexivity.
Defined.

Lemma commands_mirror_the_ledger_witness :
  let this := @UnifiedFileSystem.deleteFile identityDigest "/b"
                (@UnifiedFileSystem.upsertData identityDigest "/a" "x"
                   UnifiedFileSystem.new) in
  @Run.steps identityDigest UnifiedFileSystem.new
    [(Run.DoUpsertData "/a" "x", []); (Run.DoDeleteFile "/b", [])] this /\
  length (UnifiedFileSystem.buildExternalFileCommands this) = 2.
Proof.
  intros this.
  assert (@Run.steps identityDigest UnifiedFileSystem.new
            [(Run.DoUpsertData "/a" "x", []); (Run.DoDeleteFile "/b", [])] this)
    as Hsteps.
  { econstructor; [| econstructor; [| constructor]]; constructor. }
  split; [exact Hsteps |].
  exact (proj1 (@commands_mirror_the_ledger identityDigest this _ Hsteps)).
Defined.

Lemma readDirectory_reports_no_path_twice_witness :
  let child := {| kind := file; path := "/d/a" |} in
  let this' := @Run.recordChildren identityDigest "/d" [child; child]
                 UnifiedFileSystem.new in
  yields (@UnifiedFileSystem.readDirectory identityDigest "/d"
            UnifiedFileSystem.new)
    [ReadDirectoryExchange "/d" (inr [child; child])]
    (Returned ["/d/a"%string], this') /\
  NoDup ["/d/a"%string].
Proof.
  intros child this'.
  assert (yields (@UnifiedFileSystem.readDirectory identityDigest "/d"
                    UnifiedFileSystem.new)
            [ReadDirectoryExchange "/d" (inr [child; child])]
            (Returned ["/d/a"%string], this')) as Hy.
  { apply (yields_Vis (ReadDirectory "/d") _ (inr [child; child])). constructor. }
  split; [exact Hy |].
  exact (@readDirectory_reports_no_path_twice identityDigest "/d"
           UnifiedFileSystem.new this' [] _ _ (Run.steps_done _) Hy).
Defined.

Lemma listing_is_idempotent_witness :
  let listing := [{| kind := file; path := "/d/a" |};
                  {| kind := directory; path := "/d/b" |}] in
  let this1 := @Run.recordChildren identityDigest "/d" listing
                 UnifiedFileSystem.new in
  yields (@UnifiedFileSystem.readDirectory identityDigest "/d"
            UnifiedFileSystem.new)
    [ReadDirectoryExchange "/d" (inr listing)]
    (Returned ["/d/a"; "/d/b"]%string, this1) /\
  yields (@UnifiedFileSystem.readDirectory identityDigest "/d" this1)
    [ReadDirectoryExchange "/d" (inr listing)]
    (Returned ["/d/a"; "/d/b"]%string, this1).
Proof.
  intros listing this1.
  assert (yields (@UnifiedFileSystem.readDirectory identityDigest "/d"
                    UnifiedFileSystem.new)
            [ReadDirectoryExchange "/d" (inr listing)]
            (Returned ["/d/a"; "/d/b"]%string, this1)) as Hy.
  { apply (yields_Vis (ReadDirectory "/d") _ (inr listing)). constructor. }
  split; [exact Hy |].
  apply (@listing_is_idempotent identityDigest "/d" listing
           UnifiedFileSystem.new this1 _ _ Hy).
  reflexivity.
Defined.

Lemma upsertFile_after_deleteFile_aborts_witness :
  Repomod.facadeFileSystem Example.api = @Repomod.unifiedFacade identityDigest /\
  forEach [Repomod.DeleteFile "/a"; Repomod.UpsertFile "/a" ∅]
    (fun command : Repomod.FileCommand =>
       Repomod.handleCommand 1 Example.api Example.repomod
         (Repomod.OfFileCommand command))
    UnifiedFileSystem.new
  = Ret (Thrown (Error "This file has already been deleted"),
         @UnifiedFileSystem.deleteFile identityDigest "/a" UnifiedFileSystem.new).
Proof.
  split; [reflexivity |].
  exact (@upsertFile_after_deleteFile_aborts identityDigest unit 0 Example.api
           Example.repomod "/a" ∅ UnifiedFileSystem.new eq_refl).
Defined.

Lemma mismatched_command_is_dropped_witness :
  let u := {| kind := directory; path := "/a" |} in
  UnifiedFileSystem.__entries UnifiedFileSystem.new !! identityDigest "/a"
    = None /\
  yields (Repomod.handleCommand 1 Example.api Example.repomod
            (Repomod.OfDirectoryCommand (Repomod.HandleFile "/a" ∅))
            UnifiedFileSystem.new)
    [GetUnifiedEntryExchange "/a" (inr u)] (Returned tt, UnifiedFileSystem.new).
Proof.
  intros u. split; [reflexivity |].
  exact (proj1 (@mismatched_command_is_dropped identityDigest unit 0 Example.api
                  Example.repomod "/a" ∅ u UnifiedFileSystem.new
                  eq_refl eq_refl) eq_refl).
Defined.

Lemma unresolved_root_ends_the_run_witness :
  UnifiedFileSystem.__entries UnifiedFileSystem.new !! identityDigest "/gone"
    = None /\
  yields (Repomod.executeRepomod 0 Example.api Example.repomod "/gone" ∅
            UnifiedFileSystem.new)
    [GetUnifiedEntryExchange "/gone" (inl (Error "ENOENT"))]
    (Thrown (Error "ENOENT"), UnifiedFileSystem.new).
Proof.
  split; [reflexivity |].
  exact (proj1 (@unresolved_root_ends_the_run identityDigest unit 0 Example.api
                  Example.repomod "/gone" ∅ (Error "ENOENT")
                  {| kind := file; path := "/gone" |}
                  {| kind := directory; path := "/gone" |}
                  UnifiedFileSystem.new eq_refl eq_refl)).
Defined.

Lemma hookless_run_stages_nothing_witness :
  let root := {| kind := directory; path := "/site" |} in
  let child := {| kind := file; path := "/site/a" |} in
  let this' := @Run.recordChildren identityDigest "/site" [child]
                 (UnifiedFileSystem.entries_set "/site" root
                    UnifiedFileSystem.new) in
  let tr := [GetUnifiedEntryExchange "/site" (inr root);
             GlobExchange Example.globArguments (inr []);
             ReadDirectoryExchange "/site" (inr [child]);
             ReadFileExchange "/site/a" (inr "aaa"%string)] in
  yields (Repomod.executeRepomod 4 Example.api Example.repomod "/site" ∅
            UnifiedFileSystem.new)
    tr (Returned [], this') /\
  UnifiedFileSystem.__changes this' = [].
Proof.
  intros root child this' tr.
  assert (yields (Repomod.executeRepomod 4 Example.api Example.repomod "/site" ∅
                    UnifiedFileSystem.new)
            tr (Returned [], this')) as Hy.
  { subst tr. answer (@inr exn _ root). answer (@inr exn (list string) []).
    answer (@inr exn _ [child]). answer (@inr exn _ "aaa"%string). finished. }
  split; [exact Hy |].
  exact (proj1 (@hookless_run_stages_nothing identityDigest unit 4
                  Example.platformPath (fun _ => tt) Example.repomod "/site" ∅
                  UnifiedFileSystem.new this' tr (Returned [])
                  eq_refl eq_refl eq_refl Hy)).
Defined.
